(** * bonbon-common/cache: the result wrapper and the timeout lock

    A shallow embedding of [cache.Outcome] with its typed accessors, of the
    three [RedisClient] methods the lock uses ([Get], [SetNX], [Expire]) and
    of [TimeoutLocker.Lock], followed by the properties of the lock
    protocol. *)

From Stdlib Require Import ZArith String List Bool Lia.
From Stdlib Require Import Floats.PrimFloat.
From stdpp Require Import gmap strings.
Import ListNotations.

Local Open Scope string_scope.
Local Open Scope Z_scope.

(** ** Go scalars *)

(** [int64] arithmetic wraps around; [wrap_int64] is the two's-complement
    reduction applied after an addition. *)
Definition wrap_int64 (z : Z) : Z := (z + 2 ^ 63) mod 2 ^ 64 - 2 ^ 63.

Definition MaxInt64 : Z := 2 ^ 63 - 1.
Definition MinInt64 : Z := - 2 ^ 63.

(** [time.Duration] is an [int64] count of nanoseconds. *)
Abbreviation Duration := Z (only parsing).

Definition Nanoseconds (d : Duration) : Z := d.

(** ** Errors

    A Go [error] interface value is [option error] here, [None] being the
    nil interface.  [Nil] is the constant [redis.Nil] re-exported by the
    package; the code only ever compares an error with [nil] and with
    [Nil]. *)

Inductive strconv_cause : Type := ErrSyntax | ErrRange.

(** [Nil] is [redis.Nil]; [ErrorsNew text] is [errors.New(text)];
    [NumError] is the [*strconv.NumError] of a failed parse; [BackendError]
    is any other error the client library returns. *)
Inductive error : Type :=
| Nil
| ErrorsNew (text : string)
| NumError (Func Num : string) (Err : strconv_cause)
| BackendError (text : string).

Definition Null : string := "".
Definition TypeMatchError : string := "type match error".

#[export] Instance strconv_cause_eq_dec : EqDecision strconv_cause.
Proof. solve_decision. Defined.

#[export] Instance error_eq_dec : EqDecision error.
Proof. solve_decision. Defined.

(** ** Outcome

    [Primordial] is an [interface{}]; the dynamic types modelled are the
    ones the scalar accessors test for, plus the nil interface. *)

Inductive Any : Type :=
| ANil
| ABool (b : bool)
| AInt64 (i : Z)
| AFloat64 (f : float)
| AString (s : string).

Record Outcome : Type := mkOutcome {
  Error : option error;
  Primordial : Any
}.

(** [strconv.ParseBool] of the Go standard library: a switch over twelve
    literals, any other input is a syntax error. *)
Definition ParseBool (str : string) : bool * option error :=
  if bool_decide (str ∈ ["1"; "t"; "T"; "true"; "TRUE"; "True"]) then (true, None)
  else if bool_decide (str ∈ ["0"; "f"; "F"; "false"; "FALSE"; "False"]) then (false, None)
  else (false, Some (NumError "ParseBool" str ErrSyntax)).

Definition GetString (oc : Outcome) : string * option error :=
  match Primordial oc with
  | AString str => (str, None)
  | _ => (Null, Some (ErrorsNew TypeMatchError))
  end.

Definition GetBool (oc : Outcome) : bool * option error :=
  match Primordial oc with
  | ABool bol => (bol, None)
  | AString str =>
      let '(value, err) := ParseBool str in
      match err with
      | Some _ => (false, err)
      | None => (value, None)
      end
  | _ => (false, Some (ErrorsNew TypeMatchError))
  end.

(** [strconv.ParseInt] and [strconv.ParseFloat] belong to the Go standard
    library; the integer and float accessors take them as parameters, with
    the base and bit size the source passes. *)
Section NumericAccessors.
Variable ParseInt : string -> Z -> Z -> Z * option error.
Variable ParseFloat : string -> Z -> float * option error.

Definition GetInt64 (oc : Outcome) : Z * option error :=
  match Primordial oc with
  | AInt64 it => (it, None)
  | AString str =>
      let '(value, err) := ParseInt str 10 64 in
      match err with
      | Some _ => (0, err)
      | None => (value, None)
      end
  | _ => (0, Some (ErrorsNew TypeMatchError))
  end.

Definition GetFloat64 (oc : Outcome) : float * option error :=
  match Primordial oc with
  | AFloat64 flot => (flot, None)
  | AString str =>
      let '(value, err) := ParseFloat str 64 in
      match err with
      | Some _ => (0%float, err)
      | None => (value, None)
      end
  | _ => (0%float, Some (ErrorsNew TypeMatchError))
  end.
End NumericAccessors.

(** ** The client: key namespacing, value encoding, jitter *)

(** Of [Options] only the two fields that enter a key are kept; the others
    configure the connection pool. *)
Record Options : Type := {
  AppName : string;
  NameSpace : string
}.

(** [RedisClient]: the connection fields ([ctx], [single], [cluster],
    [flag]) only select which go-redis handle [Runner] returns. *)
Record RedisClient : Type := {
  opt : Options
}.

(** [GetKey]: [fmt.Sprintf("%s-%s-%v", AppName, NameSpace, raw)] at a string
    [raw]. *)
Definition GetKey (rc : RedisClient) (raw : string) : string :=
  AppName (opt rc) ++ "-" ++ NameSpace (opt rc) ++ "-" ++ raw.

(** [GetValue] marshals values whose reflect kind is Struct, Slice, Map,
    Array or Ptr and returns every other value unchanged.  The lock passes a
    Go string, whose kind is String: the default branch. *)
Definition GetValue (raw : string) : string := raw.

(** [RedisClient.Outcome]. *)
Definition rc_Outcome (value : Any) (err : option error) : Outcome :=
  match err with
  | None => {| Error := None; Primordial := value |}
  | Some _ => {| Error := err; Primordial := ANil |}
  end.

(** ** The cache backend *)

(** Modelled from the spec: the remote store behind [Runner()] (go-redis and
    the Redis server) is an external collaborator, no code of the package.
    Section 6 of the specification gives its contract: [Get] answers the
    value or the key-absent error, [SetIfAbsent] sets only an absent key and
    says whether it did, [Expire] resets the time to live of an existing key
    and says whether it did; any other error is a communication failure.
    The model is a single store with a clock, an entry being gone once its
    deadline is reached.  Every command first spends one [Step] of the
    network schedule: the clock advances by the step's delay and the command
    may fail, either before it reaches the store or after the store applied
    it. *)
Record Entry : Type := {
  held : string;
  deadline : Z
}.

(** Modelled from the spec: a communication failure, before the command
    reaches the store or after the store applied it. *)
Inductive Fault : Type :=
| Refused (text : string)
| ReplyLost (text : string).

(** Modelled from the spec: what the network does to one command. *)
Record Step : Type := {
  delay : N;
  fault : option Fault
}.

(** The commands handed to the backend, with their arguments. *)
Inductive Command : Type :=
| GET (key : string)
| SETNX (key value : string) (expiration : Z)
| EXPIRE (key : string) (expiration : Z).

(** [rng] is the supply of raw outputs of the [math/rand] generator and
    [wire] the log of the commands issued so far. *)
Record World : Type := {
  store : gmap string Entry;
  clock : Z;
  net : list Step;
  rng : list Z;
  wire : list Command
}.

(** The world with another store. *)
Definition set_store (m : gmap string Entry) (w : World) : World :=
  {| store := m; clock := clock w; net := net w; rng := rng w; wire := wire w |}.

(** A command is logged when it is issued. *)
Definition emit (c : Command) (w : World) : World :=
  {| store := store w; clock := clock w; net := net w; rng := rng w;
     wire := wire w ++ [c] |}.

(** Modelled from the spec: the command travels; the clock advances and the
    step says whether the command fails.  An exhausted schedule is a prompt,
    faultless network. *)
Definition arrive (w : World) : option Fault * World :=
  match net w with
  | [] => (None, w)
  | st :: rest =>
      (fault st,
       {| store := store w; clock := clock w + Z.of_N (delay st); net := rest;
          rng := rng w; wire := wire w |})
  end.

(** Modelled from the spec: the value of a key at the current instant; an
    entry whose deadline has been reached is gone. *)
Definition alive (w : World) (key : string) : option string :=
  match store w !! key with
  | Some e => if clock w <? deadline e then Some (held e) else None
  | None => None
  end.

(** Modelled from the spec: [Get(key)], the value or the key-absent error. *)
Definition serve_Get (key : string) (w : World) : string * option error :=
  match alive w key with
  | Some v => (v, None)
  | None => ("", Some Nil)
  end.

(** Modelled from the spec: [SetIfAbsent(key, value, ttl)], which sets the
    key and answers true only if the key was absent. *)
Definition serve_SetNX (key value : string) (ttl : Z) (w : World) : bool * World :=
  match alive w key with
  | Some _ => (false, w)
  | None =>
      (true, set_store (<[key := {| held := value; deadline := clock w + ttl |}]> (store w)) w)
  end.

(** Modelled from the spec: [Expire(key, ttl)], which resets the deadline
    and answers true only if the key existed. *)
Definition serve_Expire (key : string) (ttl : Z) (w : World) : bool * World :=
  match alive w key with
  | Some v =>
      (true, set_store (<[key := {| held := v; deadline := clock w + ttl |}]> (store w)) w)
  | None => (false, w)
  end.

(** Modelled from the spec: [Runner().Get(key)]; the pair is
    [(cmd.Val(), cmd.Err())], the zero value coming with an error. *)
Definition Runner_Get (key : string) (w : World) : (string * option error) * World :=
  let '(f, w1) := arrive (emit (GET key) w) in
  match f with
  | Some (Refused text) | Some (ReplyLost text) => (("", Some (BackendError text)), w1)
  | None => (serve_Get key w1, w1)
  end.

(** Modelled from the spec: [Runner().SetNX(key, value, expiration)]. *)
Definition Runner_SetNX (key value : string) (expiration : Z) (w : World)
  : (bool * option error) * World :=
  let '(f, w1) := arrive (emit (SETNX key value expiration) w) in
  match f with
  | Some (Refused text) => ((false, Some (BackendError text)), w1)
  | Some (ReplyLost text) =>
      ((false, Some (BackendError text)), snd (serve_SetNX key value expiration w1))
  | None => let '(ok, w2) := serve_SetNX key value expiration w1 in ((ok, None), w2)
  end.

(** Modelled from the spec: [Runner().Expire(key, expiration)]. *)
Definition Runner_Expire (key : string) (expiration : Z) (w : World)
  : (bool * option error) * World :=
  let '(f, w1) := arrive (emit (EXPIRE key expiration) w) in
  match f with
  | Some (Refused text) => ((false, Some (BackendError text)), w1)
  | Some (ReplyLost text) =>
      ((false, Some (BackendError text)), snd (serve_Expire key expiration w1))
  | None => let '(ok, w2) := serve_Expire key expiration w1 in ((ok, None), w2)
  end.

(** [rand.Int63n(n)] of the Go standard library, a number in [0, n): the
    next output of the generator, reduced into that range. *)
Definition Int63n (n : Z) (w : World) : Z * World :=
  match rng w with
  | [] => (0, w)
  | r :: rest =>
      (r mod n,
       {| store := store w; clock := clock w; net := net w; rng := rest;
          wire := wire w |})
  end.

(** [Drift]: the duration plus a random number of nanoseconds below 60,
    against cache avalanches. *)
Definition Drift (duration : Duration) (w : World) : Duration * World :=
  let '(drift, w1) := Int63n 60 w in
  (wrap_int64 (Nanoseconds duration + drift), w1).

(** ** The three client methods the lock calls

    Each computes the namespaced key, runs the command and wraps
    [(cmd.Val(), cmd.Err())]; [SetNX] drifts the expiration first. *)

Definition Expire (rc : RedisClient) (key : string) (duration : Duration) (w : World)
  : Outcome * World :=
  let hook := GetKey rc key in
  let '((val, err), w1) := Runner_Expire hook duration w in
  (rc_Outcome (ABool val) err, w1).

Definition Get (rc : RedisClient) (key : string) (w : World) : Outcome * World :=
  let hook := GetKey rc key in
  let '((val, err), w1) := Runner_Get hook w in
  (rc_Outcome (AString val) err, w1).

Definition SetNX (rc : RedisClient) (key value : string) (expiration : Duration)
  (w : World) : Outcome * World :=
  let hook := GetKey rc key in
  let '(ttl, w1) := Drift expiration w in
  let '((val, err), w2) := Runner_SetNX hook (GetValue value) ttl w1 in
  (rc_Outcome (ABool val) err, w2).

(** ** Programs over the cache

    [Lock] is a sequence of client calls, each continuing on the [Outcome]
    of the one before.  A program is run against a handler that serves the
    calls on a state; [run] returns the result, the final state and the
    calls made, in order. *)

Inductive Call : Type :=
| CallGet (key : string)
| CallSetNX (key value : string) (expiration : Duration)
| CallExpire (key : string) (duration : Duration).

Inductive Prog (R : Type) : Type :=
| Ret (r : R)
| Do (c : Call) (k : Outcome -> Prog R).

Arguments Ret {R} r.
Arguments Do {R} c k.

Notation "x <- c ;; k" := (Do c (fun x => k))
  (at level 100, c at next level, right associativity).

(** Running a program against a handler. *)
Fixpoint run {S R : Type} (h : Call -> S -> Outcome * S) (p : Prog R) (s : S)
  : R * S * list Call :=
  match p with
  | Ret r => (r, s, [])
  | Do c k =>
      let '(oc, s1) := h c s in
      let '(r, s2, tr) := run h (k oc) s1 in
      (r, s2, c :: tr)
  end.

(** The handler of the real client. *)
Definition redis (rc : RedisClient) (c : Call) (w : World) : Outcome * World :=
  match c with
  | CallGet key => Get rc key w
  | CallSetNX key value expiration => SetNX rc key value expiration w
  | CallExpire key duration => Expire rc key duration w
  end.

(** A handler that answers from a list of prepared outcomes, for following
    the control flow alone; it answers a lost connection when the list is
    exhausted. *)
Definition scripted (c : Call) (s : list Outcome) : Outcome * list Outcome :=
  match s with
  | [] => (mkOutcome (Some (BackendError "EOF")) ANil, [])
  | oc :: rest => (oc, rest)
  end.

(** ** The timeout lock *)

Record TimeoutLocker : Type := {
  TimeOut : Duration;
  ReUse : bool
}.

(** [NewTimeOutLock]. *)
Definition NewTimeOutLock (timeout : Duration) (reuse : bool) : TimeoutLocker :=
  {| TimeOut := timeout; ReUse := reuse |}.

(** The test [err == nil]. *)
Definition isNil (err : option error) : bool := bool_decide (err = None).

(** [TimeoutLocker.Lock]; [topic] is the holder token. *)
Definition Lock (tl : TimeoutLocker) (name topic : string) : Prog bool :=
  value <- CallGet name ;;
  match Error value with
  | Some e =>
      if bool_decide (e = Nil) then
        nx <- CallSetNX name topic (TimeOut tl) ;;
        let '(bol, err) := GetBool nx in
        if bol && isNil err then Ret true else Ret false
      else Ret false
  | None =>
      let '(str, err) := GetString value in
      if isNil err && negb (bool_decide (str = topic)) then Ret false
      else if negb (ReUse tl) then Ret false
      else
        expire <- CallExpire name (TimeOut tl) ;;
        let '(bol, err) := GetBool expire in
        if bol && isNil err then
          after <- CallGet name ;;
          if isNil (Error after) then
            let '(str, err) := GetString after in
            if isNil err && bool_decide (str = topic) then Ret true else Ret false
          else Ret false
        else
          nx <- CallSetNX name topic (TimeOut tl) ;;
          let '(bol, err) := GetBool nx in
          if bol && isNil err then Ret true else Ret false
  end.

(** [Lock] as the application calls it: against the process-wide client
    [GetRedis()], once [InitRedisClient] has set it. *)
Definition LockOn (rc : RedisClient) (tl : TimeoutLocker) (name topic : string)
  (w : World) : bool * World * list Call :=
  run (redis rc) (Lock tl name topic) w.

(** The program that remains once the first call has been answered. *)
Definition after_read {R : Type} (p : Prog R) (oc : Outcome) : Prog R :=
  match p with
  | Ret r => Ret r
  | Do _ k => k oc
  end.

(** Every call a program can make, whatever the answers, satisfies [P]. *)
Fixpoint OnlyCalls {R : Type} (P : Call -> Prop) (p : Prog R) : Prop :=
  match p with
  | Ret _ => True
  | Do c k => P c /\ forall oc, OnlyCalls P (k oc)
  end.

(** ** Vocabulary of the statements *)

(** The stored value is a string other than the caller's token: the test
    [err == nil && str != topic] of the source. *)
Definition foreign (topic : string) (value : Outcome) : bool :=
  let '(str, err) := GetString value in
  isNil err && negb (bool_decide (str = topic)).

(** The confirmation read succeeded and still shows the caller's token. *)
Definition confirmed (topic : string) (after : Outcome) : bool :=
  bool_decide (Error after = None /\ GetString after = (topic, None)).

(** The type assertions [oc.Primordial.(T)]. *)
Definition asInt64 (a : Any) : option Z :=
  match a with AInt64 i => Some i | _ => None end.
Definition asFloat64 (a : Any) : option float :=
  match a with AFloat64 f => Some f | _ => None end.
Definition asBool (a : Any) : option bool :=
  match a with ABool b => Some b | _ => None end.
Definition asString (a : Any) : option string :=
  match a with AString s => Some s | _ => None end.

(** The contract of an accessor [get] for the native type recognised by
    [native], with the string parser [parse] when it has one: a native value
    is returned as it is; a string is parsed, and a parse that fails with
    [e] is reported as [report e]; any other value is a type mismatch. *)
Definition coercion_contract {T : Type} (report : error -> error)
    (get : Outcome -> T * option error) (native : Any -> option T)
    (parse : option (string -> T * option error)) (zero : T) : Prop :=
  forall oc : Outcome,
    match native (Primordial oc), Primordial oc, parse with
    | Some v, _, _ => get oc = (v, None)
    | None, AString str, Some p =>
        match p str with
        | (v, None) => get oc = (v, None)
        | (_, Some e) => get oc = (zero, Some (report e))
        end
    | None, _, _ => get oc = (zero, Some (ErrorsNew TypeMatchError))
    end.

(** The reading under which every impossible coercion is reported as the
    type mismatch. *)
Definition always_mismatch (_ : error) : error := ErrorsNew TypeMatchError.

(** The world at the instant the next command is served. *)
Definition on_arrival (w : World) : World := snd (arrive w).

(** The message of a failure. *)
Definition fault_text (f : Fault) : string :=
  match f with Refused text | ReplyLost text => text end.

(** The command each client call puts on the wire. *)
Definition command_of (rc : RedisClient) (c : Call) (w : World) : Command :=
  match c with
  | CallGet key => GET (GetKey rc key)
  | CallSetNX key value expiration =>
      SETNX (GetKey rc key) (GetValue value) (fst (Drift expiration w))
  | CallExpire key duration => EXPIRE (GetKey rc key) duration
  end.

(** The calls [Lock] is entitled to make. *)
Definition lock_call (tl : TimeoutLocker) (name topic : string) (c : Call) : Prop :=
  c = CallGet name
  \/ c = CallSetNX name topic (TimeOut tl)
  \/ c = CallExpire name (TimeOut tl).

(** What [Lock] may put on the wire: reads of the namespaced key,
    set-if-absent of the token with the lease plus a drift below 60
    nanoseconds (in [int64] arithmetic), refreshes with the lease itself. *)
Definition leased (rc : RedisClient) (tl : TimeoutLocker) (name topic : string)
    (c : Command) : Prop :=
  match c with
  | GET key => key = GetKey rc name
  | SETNX key value expiration =>
      key = GetKey rc name /\ value = topic
      /\ exists drift, 0 <= drift < 60
           /\ expiration = wrap_int64 (TimeOut tl + drift)
           /\ (MinInt64 <= TimeOut tl <= MaxInt64 - 59 ->
               expiration = TimeOut tl + drift)
  | EXPIRE key expiration => key = GetKey rc name /\ expiration = TimeOut tl
  end.

(** The expirations of the set-if-absent commands in a log. *)
Definition requested_ttls (cmds : list Command) : list Z :=
  omap (fun c => match c with SETNX _ _ e => Some e | _ => None end) cmds.

(** The token a read issued in world [w] would find under [name]: the value
    of the entry at the instant the read is served, if it has not expired. *)
Definition holder (rc : RedisClient) (name : string) (w : World) : option string :=
  alive (on_arrival w) (GetKey rc name).

(** The next [n] commands meet no network fault. *)
Definition calm (n : nat) (w : World) : Prop :=
  Forall (fun st => fault st = None) (take n (net w)).

(** ** The rest of the client *)

(** A key argument, an [interface{}] formatted with [%v]: a string prints as
    itself, a [[]string] as its elements separated by spaces, within square
    brackets. *)
Inductive Raw : Type :=
| RawString (s : string)
| RawStrings (l : list string).

Definition Sprint (raw : Raw) : string :=
  match raw with
  | RawString s => s
  | RawStrings l => "[" ++ String.concat " " l ++ "]"
  end.

(** [GetKey] at any key argument; at a string it is [GetKey] above. *)
Definition GetKeyOf (rc : RedisClient) (raw : Raw) : string :=
  GetKey rc (Sprint raw).

(** [GetKeys]: the loop appends the key of each argument. *)
Definition GetKeys (rc : RedisClient) (raw : list Raw) : list string :=
  fold_left (fun keys r => (keys ++ [GetKeyOf rc r])%list) raw [].

(** The first statement of [Del], [Exists] and [MGet], [rc.GetKeys(keys)]:
    [keys] is the [[]string] of the variadic parameter and [GetKeys] takes
    [...interface{}], so the slice arrives as one argument.  The result is
    what [Runner().Del(hooks...)] is called with. *)
Definition hooks_of (rc : RedisClient) (keys : list string) : list string :=
  GetKeys rc [RawStrings keys].

(** [GetValue] at a scalar or nil [interface{}]: [reflect.TypeOf(nil)] is
    nil, so asking its kind panics ([None]); a bool, int64, float64 or string
    is returned unchanged. *)
Definition GetValueOf (raw : Any) : option Any :=
  match raw with
  | ANil => None
  | _ => Some raw
  end.

(** [MSet]: the loop walks the arguments two by two, building [kvs] from
    the namespaced key and the encoded value; [pairs[i+1]] past the end and
    [GetValue(nil)] panic ([None]).  The command is then issued on [pairs],
    not on [kvs].  The [%v] text of a scalar key is a parameter. *)
Section MSet.
Variable Sprint_any : Any -> string.

Fixpoint MSet_kvs (rc : RedisClient) (pairs : list Any) : option (list Any) :=
  match pairs with
  | [] => Some []
  | [_] => None
  | k :: v :: rest =>
      match GetValueOf v with
      | None => None
      | Some v' =>
          match MSet_kvs rc rest with
          | None => None
          | Some kvs => Some (AString (GetKey rc (Sprint_any k)) :: v' :: kvs)
          end
      end
  end.

(** The argument [Runner().MSet] is called with, if [MSet] gets that far. *)
Definition MSet_args (rc : RedisClient) (pairs : list Any) : option (list Any) :=
  match MSet_kvs rc pairs with
  | None => None
  | Some _ => Some pairs
  end.
End MSet.

(** [strings.Contains]. *)
Definition Contains (s substr : string) : bool :=
  bool_decide (is_Some (String.index 0 substr s)).

(** [Ping], on the text [ping.String()] and the error [ping.Err()] of the
    reply. *)
Definition Ping (text : string) (err : option error) : bool :=
  if Contains text "PONG" && bool_decide (err = Some Nil) then true else true.

(** *** Initialisation *)

(** [Options] with its [Addr] field; the remaining fields are handed to
    go-redis as they are. *)
Record Settings : Type := {
  names : Options;
  Addr : list string
}.

(** [RedisClient] with the fields left out above: the single-node handle
    (the address it was made for), the cluster handle (its addresses) and the
    flag that chooses between them; [None] is a nil pointer. *)
Record Connected : Type := {
  client : RedisClient;
  single : option string;
  cluster : option (list string);
  flag : bool
}.

(** The package variables [redisClient] and [once]. *)
Record Process : Type := {
  once_done : bool;
  redisClient : option Connected
}.

(** [InitRedisClient]: [once.Do] runs its function on the first call only,
    whatever that call does; [err] is nil unless the function sets it. *)
Definition InitRedisClient (opt : option Settings) (p : Process)
  : option error * Process :=
  if once_done p then (None, p)
  else
    match opt with
    | None =>
        (Some (ErrorsNew "options is null"),
         {| once_done := true; redisClient := redisClient p |})
    | Some o =>
        match Addr o with
        | [] =>
            (Some (ErrorsNew "addr is null"),
             {| once_done := true; redisClient := redisClient p |})
        | [a] =>
            (None,
             {| once_done := true;
                redisClient :=
                  Some {| client := {| opt := names o |}; single := Some a;
                          cluster := None; flag := true |} |})
        | _ =>
            (None,
             {| once_done := true;
                redisClient :=
                  Some {| client := {| opt := names o |}; single := None;
                          cluster := Some (Addr o); flag := false |} |})
        end
    end.

Definition GetRedis (p : Process) : option Connected := redisClient p.

(** What [Runner] returns: the handle on one node or on a cluster. *)
Inductive Cmdable : Type :=
| OnNode (addr : string)
| OnCluster (addrs : list string).

Definition Runner (rc : Connected) : option Cmdable :=
  if flag rc then OnNode <$> single rc else OnCluster <$> cluster rc.

(** A process in which [InitRedisClient] has not been called. *)
Definition fresh : Process := {| once_done := false; redisClient := None |}.

(** *** Vocabulary of the further statements *)

(** The four call sequences of [Lock]. *)
Definition lock_traces (tl : TimeoutLocker) (name topic : string) : list (list Call) :=
  [ [CallGet name];
    [CallGet name; CallSetNX name topic (TimeOut tl)];
    [CallGet name; CallExpire name (TimeOut tl); CallGet name];
    [CallGet name; CallExpire name (TimeOut tl); CallSetNX name topic (TimeOut tl)] ].

(** The key a call addresses. *)
Definition call_key (c : Call) : string :=
  match c with
  | CallGet key | CallSetNX key _ _ | CallExpire key _ => key
  end.

(** The outcome of a read that found the key absent. *)
Definition absent : Outcome := mkOutcome (Some Nil) ANil.

(** ** Concrete inputs *)

(** A client for application ["app"], namespace ["ns"]. *)
Definition rc0 : RedisClient := {| opt := {| AppName := "app"; NameSpace := "ns" |} |}.

(** The empty store at time 0 on a calm network; the generator will yield
    7, then 130. *)
Definition world0 : World :=
  {| store := ∅; clock := 0; net := []; rng := [7; 130]; wire := [] |}.

(** [d] nanoseconds later. *)
Definition pass (d : Z) (w : World) : World :=
  {| store := store w; clock := clock w + d; net := net w; rng := rng w;
     wire := wire w |}.

Definition second : Z := 1000000000.

(** The two lock managers of the scenarios of the specification. *)
Definition tl5 : TimeoutLocker := NewTimeOutLock (5 * second) true.
Definition tl3 : TimeoutLocker := NewTimeOutLock (3 * second) false.

(** After [workerA] took ["job1"] on the empty store. *)
Definition world1 : World := snd (fst (LockOn rc0 tl5 "job1" "workerA" world0)).

(** The same store behind a connection whose next command times out. *)
Definition world1_down : World :=
  {| store := store world1; clock := clock world1;
     net := [{| delay := 5%N; fault := Some (Refused "i/o timeout") |}];
     rng := rng world1; wire := wire world1 |}.

(** The same store when the entry expires between the first read and the
    refresh: the second command arrives six seconds late. *)
Definition world1_slow : World :=
  {| store := store world1; clock := clock world1;
     net := [{| delay := 0%N; fault := None |};
             {| delay := 6000000000%N; fault := None |}];
     rng := rng world1; wire := wire world1 |}.

(** * Properties *)

(** ** Evaluations *)

Example GetBool_true : GetBool (mkOutcome None (AString "TRUE")) = (true, None).
Proof. reflexivity. Qed.

Example GetBool_junk :
  GetBool (mkOutcome None (AString "yes"))
  = (false, Some (NumError "ParseBool" "yes" ErrSyntax)).
Proof. reflexivity. Qed.


(** ** The accessors *)

Lemma isNil_None : isNil None = true.
Proof. reflexivity. Qed.

Lemma isNil_Some e : isNil (Some e) = false.
Proof. reflexivity. Qed.

Lemma GetBool_never_both oc : fst (GetBool oc) = true -> snd (GetBool oc) = None.
Proof.
  unfold GetBool. destruct (Primordial oc) as [| b | | | str]; cbn; try done.
  destruct (ParseBool str) as [value [e|]]; cbn; done.
Qed.

(** The test [bol && err == nil] of the source, as one equation. *)
Lemma took_effect oc :
  (let '(bol, err) := GetBool oc in bol && isNil err)
  = bool_decide (GetBool oc = (true, None)).
Proof.
  pose proof (GetBool_never_both oc) as H.
  destruct (GetBool oc) as [[|] [e|]]; cbn in *; done.
Qed.

Lemma GetBool_rc_Outcome val err :
  GetBool (rc_Outcome (ABool val) err) = (true, None) <-> val = true /\ err = None.
Proof.
  destruct err as [e|]; cbn; split.
  - discriminate.
  - intros [_ ?]; discriminate.
  - intros [= ->]; done.
  - intros [-> _]; done.
Qed.

(** ** The control flow of [Lock], against any handler *)

Section Flow.
Context {S : Type} (h : Call -> S -> Outcome * S).
Variables (tl : TimeoutLocker) (name topic : string).

Lemma run_absent s value s1 nx s2 :
  h (CallGet name) s = (value, s1) ->
  Error value = Some Nil ->
  h (CallSetNX name topic (TimeOut tl)) s1 = (nx, s2) ->
  run h (Lock tl name topic) s
  = (bool_decide (GetBool nx = (true, None)), s2,
     [CallGet name; CallSetNX name topic (TimeOut tl)]).
Proof.
  intros Hget Herr Hnx. unfold Lock. cbn [run]. rewrite Hget, Herr.
  rewrite bool_decide_eq_true_2 by done. cbn [run]. rewrite Hnx.
  rewrite <- took_effect. destruct (GetBool nx) as [bol err].
  destruct (bol && isNil err); reflexivity.
Qed.

Lemma run_read_error s value s1 e :
  h (CallGet name) s = (value, s1) ->
  Error value = Some e ->
  e <> Nil ->
  run h (Lock tl name topic) s = (false, s1, [CallGet name]).
Proof.
  intros Hget Herr Hne. unfold Lock. cbn [run]. rewrite Hget, Herr.
  rewrite bool_decide_eq_false_2 by done. reflexivity.
Qed.

Lemma run_foreign s value s1 :
  h (CallGet name) s = (value, s1) ->
  Error value = None ->
  foreign topic value = true ->
  run h (Lock tl name topic) s = (false, s1, [CallGet name]).
Proof.
  intros Hget Herr Hf. unfold Lock, foreign in *. cbn [run]. rewrite Hget, Herr.
  destruct (GetString value) as [str err]. rewrite Hf. reflexivity.
Qed.

Lemma run_no_reuse s value s1 :
  h (CallGet name) s = (value, s1) ->
  Error value = None ->
  foreign topic value = false ->
  ReUse tl = false ->
  run h (Lock tl name topic) s = (false, s1, [CallGet name]).
Proof.
  intros Hget Herr Hf Hre. unfold Lock, foreign in *. cbn [run]. rewrite Hget, Herr.
  destruct (GetString value) as [str err]. rewrite Hf, Hre. reflexivity.
Qed.

Lemma run_refresh s value s1 expire s2 after s3 :
  h (CallGet name) s = (value, s1) ->
  Error value = None ->
  foreign topic value = false ->
  ReUse tl = true ->
  h (CallExpire name (TimeOut tl)) s1 = (expire, s2) ->
  GetBool expire = (true, None) ->
  h (CallGet name) s2 = (after, s3) ->
  run h (Lock tl name topic) s
  = (confirmed topic after, s3,
     [CallGet name; CallExpire name (TimeOut tl); CallGet name]).
Proof.
  intros Hget Herr Hf Hre Hex Hok Hafter. unfold Lock, foreign in *. cbn [run].
  rewrite Hget, Herr. destruct (GetString value) as [str err]. rewrite Hf, Hre.
  cbn [negb run]. rewrite Hex, Hok. rewrite isNil_None.
  cbn [andb run]. rewrite Hafter. unfold confirmed.
  destruct (Error after) as [e|].
  { rewrite isNil_Some. cbn [run].
    rewrite bool_decide_eq_false_2; [done | intros [? _]; done]. }
  rewrite isNil_None. destruct (GetString after) as [str' [e'|]].
  { rewrite isNil_Some. cbn [andb run].
    rewrite bool_decide_eq_false_2; [done | intros [_ ?]; done]. }
  rewrite isNil_None. cbn [andb].
  destruct (decide (str' = topic)) as [-> | Hne].
  - rewrite !bool_decide_eq_true_2 by done. reflexivity.
  - rewrite bool_decide_eq_false_2 by done.
    rewrite bool_decide_eq_false_2; [done | intros [_ [= ?]]; done].
Qed.

Lemma run_fallback s value s1 expire s2 nx s3 :
  h (CallGet name) s = (value, s1) ->
  Error value = None ->
  foreign topic value = false ->
  ReUse tl = true ->
  h (CallExpire name (TimeOut tl)) s1 = (expire, s2) ->
  GetBool expire <> (true, None) ->
  h (CallSetNX name topic (TimeOut tl)) s2 = (nx, s3) ->
  run h (Lock tl name topic) s
  = (bool_decide (GetBool nx = (true, None)), s3,
     [CallGet name; CallExpire name (TimeOut tl); CallSetNX name topic (TimeOut tl)]).
Proof.
  intros Hget Herr Hf Hre Hex Hko Hnx. unfold Lock, foreign in *. cbn [run].
  rewrite Hget, Herr. destruct (GetString value) as [str err]. rewrite Hf, Hre.
  cbn [negb run]. rewrite Hex.
  pose proof (took_effect expire) as Ht.
  destruct (GetBool expire) as [bol err']. rewrite Ht.
  rewrite bool_decide_eq_false_2 by done. cbn [run]. rewrite Hnx.
  rewrite <- took_effect. destruct (GetBool nx) as [bol2 err2].
  destruct (bol2 && isNil err2); reflexivity.
Qed.

(** When [Lock] answers true, its last call was a set-if-absent that took
    effect or a read that found the caller's token. *)
Lemma run_true_last s s' tr :
  run h (Lock tl name topic) s = (true, s', tr) ->
  exists s0,
    (exists nx, h (CallSetNX name topic (TimeOut tl)) s0 = (nx, s')
                /\ GetBool nx = (true, None))
    \/ (exists after, h (CallGet name) s0 = (after, s')
                /\ Error after = None /\ GetString after = (topic, None)).
Proof.
  destruct (h (CallGet name) s) as [value s1] eqn:Hget.
  destruct (Error value) as [e|] eqn:Herr.
  - destruct (decide (e = Nil)) as [-> | Hne].
    + destruct (h (CallSetNX name topic (TimeOut tl)) s1) as [nx s2] eqn:Hnx.
      rewrite (run_absent _ _ _ _ _ Hget Herr Hnx). intros [= Hb <- _].
      apply bool_decide_eq_true in Hb. eauto 6.
    + rewrite (run_read_error _ _ _ _ Hget Herr Hne). discriminate.
  - destruct (foreign topic value) eqn:Hf.
    { rewrite (run_foreign _ _ _ Hget Herr Hf). discriminate. }
    destruct (ReUse tl) eqn:Hre.
    2:{ rewrite (run_no_reuse _ _ _ Hget Herr Hf Hre). discriminate. }
    destruct (h (CallExpire name (TimeOut tl)) s1) as [expire s2] eqn:Hex.
    destruct (decide (GetBool expire = (true, None))) as [Hok | Hko].
    + destruct (h (CallGet name) s2) as [after s3] eqn:Hafter.
      rewrite (run_refresh _ _ _ _ _ _ _ Hget Herr Hf Hre Hex Hok Hafter).
      intros [= Hb <- _]. apply bool_decide_eq_true in Hb. eauto 8.
    + destruct (h (CallSetNX name topic (TimeOut tl)) s2) as [nx s3] eqn:Hnx.
      rewrite (run_fallback _ _ _ _ _ _ _ Hget Herr Hf Hre Hex Hko Hnx).
      intros [= Hb <- _]. apply bool_decide_eq_true in Hb. eauto 6.
Qed.
End Flow.

Lemma foreign_string topic value stored :
  Primordial value = AString stored -> stored <> topic -> foreign topic value = true.
Proof.
  intros HP Hne. unfold foreign, GetString. rewrite HP. cbn.
  rewrite bool_decide_eq_false_2 by done. reflexivity.
Qed.

Lemma foreign_own topic value :
  Primordial value = AString topic -> foreign topic value = false.
Proof.
  intros HP. unfold foreign, GetString. rewrite HP. cbn.
  rewrite bool_decide_eq_true_2 by done. reflexivity.
Qed.

Lemma foreign_unreadable topic value :
  snd (GetString value) <> None -> foreign topic value = false.
Proof.
  unfold foreign. destruct (GetString value) as [str [e|]]; cbn; done.
Qed.

Example scenario_acquire :
  LockOn rc0 tl5 "job1" "workerA" world0
  = (true, world1, [CallGet "job1"; CallSetNX "job1" "workerA" (5 * second)]).
Proof. reflexivity. Qed.

Example scenario_contend :
  fst (LockOn rc0 tl5 "job1" "workerB" world1) = (false, snd (Get rc0 "job1" world1)).
Proof. reflexivity. Qed.

Example scenario_refresh :
  fst (fst (LockOn rc0 tl5 "job1" "workerA" world1)) = true.
Proof. reflexivity. Qed.

Example scenario_expired :
  fst (fst (LockOn rc0 tl5 "job1" "workerB" (pass (6 * second) world1))) = true.
Proof. reflexivity. Qed.

Example scenario_no_reuse :
  let w := snd (fst (LockOn rc0 tl3 "job2" "x" world0)) in
  fst (fst (LockOn rc0 tl3 "job2" "x" world0)) = true
  /\ fst (fst (LockOn rc0 tl3 "job2" "x" w)) = false.
Proof. split; reflexivity. Qed.

(** ** The branches of the acquisition protocol *)

(** C2, uncontended acquisition: when the initial read of [name] fails with
    the key-absent error [Nil], [Lock] makes exactly one further call, a
    set-if-absent of [name] to [holderToken] with the configured lease, and
    answers true exactly when that call reports boolean true with no error;
    for an outcome built by the client from the backend's reply [(val, err)]
    this is [val = true] and [err = nil]. *)
Theorem Lock_uncontended {S : Type} (h : Call -> S -> Outcome * S)
    (tl : TimeoutLocker) (name holderToken : string) (s s1 s2 : S)
    (value nx : Outcome) :
  h (CallGet name) s = (value, s1) ->
  Error value = Some Nil ->
  h (CallSetNX name holderToken (TimeOut tl)) s1 = (nx, s2) ->
  exists b : bool,
    run h (Lock tl name holderToken) s
    = (b, s2, [CallGet name; CallSetNX name holderToken (TimeOut tl)])
    /\ (b = true <-> GetBool nx = (true, None))
    /\ (forall val err, nx = rc_Outcome (ABool val) err ->
        (b = true <-> val = true /\ err = None)).
Proof.
  intros Hget Herr Hnx. eexists. split; [exact (run_absent h _ _ _ _ _ _ _ _ Hget Herr Hnx) |].
  split.
  - apply bool_decide_eq_true.
  - intros val err ->. rewrite bool_decide_eq_true. apply GetBool_rc_Outcome.
Qed.

Lemma Lock_uncontended_witness :
  exists b : bool,
    run (redis rc0) (Lock tl5 "job1" "workerA") world0
    = (b, world1, [CallGet "job1"; CallSetNX "job1" "workerA" (TimeOut tl5)])
    /\ (b = true <-> GetBool (mkOutcome None (ABool true)) = (true, None))
    /\ (forall val err, mkOutcome None (ABool true) = rc_Outcome (ABool val) err ->
        (b = true <-> val = true /\ err = None)).
Proof.
  apply (Lock_uncontended (redis rc0) tl5 "job1" "workerA" world0
           (snd (Get rc0 "job1" world0)) world1 (mkOutcome (Some Nil) ANil)
           (mkOutcome None (ABool true))); reflexivity.
Defined.

(** C3, refresh then confirm: when the initial read succeeds with the
    caller's own token, reuse is enabled and the expiry refresh reports
    boolean true with no error, [Lock] reads [name] again and answers true
    exactly when that second read succeeds with no error and its value is
    still [holderToken]; it answers false for every other outcome of the
    second read. *)
Theorem Lock_refresh_confirm {S : Type} (h : Call -> S -> Outcome * S)
    (tl : TimeoutLocker) (name holderToken : string) (s s1 s2 s3 : S)
    (value expire after : Outcome) :
  h (CallGet name) s = (value, s1) ->
  Error value = None ->
  GetString value = (holderToken, None) ->
  ReUse tl = true ->
  h (CallExpire name (TimeOut tl)) s1 = (expire, s2) ->
  GetBool expire = (true, None) ->
  h (CallGet name) s2 = (after, s3) ->
  exists b : bool,
    run h (Lock tl name holderToken) s
    = (b, s3, [CallGet name; CallExpire name (TimeOut tl); CallGet name])
    /\ (b = true <-> Error after = None /\ GetString after = (holderToken, None)).
Proof.
  intros Hget Herr Hstr Hre Hex Hok Hafter.
  assert (Hf : foreign holderToken value = false).
  { unfold foreign. rewrite Hstr. rewrite bool_decide_eq_true_2 by done.
    apply andb_false_r. }
  eexists. split.
  - exact (run_refresh h _ _ _ _ _ _ _ _ _ _ Hget Herr Hf Hre Hex Hok Hafter).
  - apply bool_decide_eq_true.
Qed.

Lemma Lock_refresh_confirm_witness :
  exists b : bool,
    run (redis rc0) (Lock tl5 "job1" "workerA") world1
    = (b, snd (Get rc0 "job1" (snd (Expire rc0 "job1" (5 * second)
                                     (snd (Get rc0 "job1" world1))))),
       [CallGet "job1"; CallExpire "job1" (TimeOut tl5); CallGet "job1"])
    /\ (b = true <->
        Error (mkOutcome None (AString "workerA")) = None
        /\ GetString (mkOutcome None (AString "workerA")) = ("workerA", None)).
Proof.
  apply (Lock_refresh_confirm (redis rc0) tl5 "job1" "workerA" world1
           (snd (Get rc0 "job1" world1))
           (snd (Expire rc0 "job1" (5 * second) (snd (Get rc0 "job1" world1))))
           _
           (mkOutcome None (AString "workerA")) (mkOutcome None (ABool true))
           (mkOutcome None (AString "workerA"))); reflexivity.
Defined.

(** C4, refresh-failure fallback: when the initial read succeeds with the
    caller's own token, reuse is enabled and the expiry refresh reports
    boolean false or an error, [Lock] falls back to one set-if-absent of
    [name] to [holderToken] with the configured lease and answers true exactly
    when that call reports boolean true with no error. *)
Theorem Lock_refresh_fallback {S : Type} (h : Call -> S -> Outcome * S)
    (tl : TimeoutLocker) (name holderToken : string) (s s1 s2 s3 : S)
    (value expire nx : Outcome) :
  h (CallGet name) s = (value, s1) ->
  Error value = None ->
  GetString value = (holderToken, None) ->
  ReUse tl = true ->
  h (CallExpire name (TimeOut tl)) s1 = (expire, s2) ->
  fst (GetBool expire) = false \/ snd (GetBool expire) <> None ->
  h (CallSetNX name holderToken (TimeOut tl)) s2 = (nx, s3) ->
  exists b : bool,
    run h (Lock tl name holderToken) s
    = (b, s3,
       [CallGet name; CallExpire name (TimeOut tl);
        CallSetNX name holderToken (TimeOut tl)])
    /\ (b = true <-> GetBool nx = (true, None))
    /\ (forall val err, nx = rc_Outcome (ABool val) err ->
        (b = true <-> val = true /\ err = None)).
Proof.
  intros Hget Herr Hstr Hre Hex Hko Hnx.
  assert (Hf : foreign holderToken value = false).
  { unfold foreign. rewrite Hstr. rewrite bool_decide_eq_true_2 by done.
    apply andb_false_r. }
  assert (Hko' : GetBool expire <> (true, None)).
  { intros E. rewrite E in Hko. cbn in Hko. destruct Hko; done. }
  eexists. split.
  - exact (run_fallback h _ _ _ _ _ _ _ _ _ _ Hget Herr Hf Hre Hex Hko' Hnx).
  - split.
    + apply bool_decide_eq_true.
    + intros val err ->. rewrite bool_decide_eq_true. apply GetBool_rc_Outcome.
Qed.

Lemma Lock_refresh_fallback_witness :
  exists b : bool,
    run (redis rc0) (Lock tl5 "job1" "workerA") world1_slow
    = (b, snd (fst (LockOn rc0 tl5 "job1" "workerA" world1_slow)),
       [CallGet "job1"; CallExpire "job1" (TimeOut tl5);
        CallSetNX "job1" "workerA" (TimeOut tl5)])
    /\ (b = true <-> GetBool (mkOutcome None (ABool true)) = (true, None))
    /\ (forall val err, mkOutcome None (ABool true) = rc_Outcome (ABool val) err ->
        (b = true <-> val = true /\ err = None)).
Proof.
  apply (Lock_refresh_fallback (redis rc0) tl5 "job1" "workerA" world1_slow
           (snd (Get rc0 "job1" world1_slow))
           (snd (Expire rc0 "job1" (5 * second) (snd (Get rc0 "job1" world1_slow))))
           _
           (mkOutcome None (AString "workerA")) (mkOutcome None (ABool false))
           (mkOutcome None (ABool true)));
    try reflexivity.
  left; reflexivity.
Defined.

(** C5, fail closed on a backend error: whatever the lease and the reuse
    flag, when the initial read of [name] returns an error other than [Nil],
    [Lock] answers false and the read is the only call it makes: no
    set-if-absent, no expiry refresh; the state it leaves is the one the
    read left. *)
Theorem Lock_fail_closed {S : Type} (h : Call -> S -> Outcome * S)
    (tl : TimeoutLocker) (name holderToken : string) (s s1 : S)
    (value : Outcome) (e : error) :
  h (CallGet name) s = (value, s1) ->
  Error value = Some e ->
  e <> Nil ->
  run h (Lock tl name holderToken) s = (false, s1, [CallGet name]).
Proof. intros Hget Herr Hne. exact (run_read_error h _ _ _ _ _ _ _ Hget Herr Hne). Qed.

Lemma Lock_fail_closed_witness :
  run (redis rc0) (Lock tl5 "job1" "workerA") world1_down
  = (false, snd (Get rc0 "job1" world1_down), [CallGet "job1"])
  /\ store (snd (Get rc0 "job1" world1_down)) = store world1_down.
Proof.
  split; [| reflexivity].
  apply (Lock_fail_closed (redis rc0) tl5 "job1" "workerA" world1_down
           (snd (Get rc0 "job1" world1_down))
           (mkOutcome (Some (BackendError "i/o timeout")) ANil)
           (BackendError "i/o timeout")); [reflexivity | reflexivity | discriminate].
Defined.

(** C6, foreign holder: when the initial read succeeds and the stored value
    is a string other than [holderToken], [Lock] answers false whatever the
    reuse flag, and the read is the only call it makes. *)
Theorem Lock_foreign_holder {S : Type} (h : Call -> S -> Outcome * S)
    (tl : TimeoutLocker) (name holderToken stored : string) (s s1 : S)
    (value : Outcome) :
  h (CallGet name) s = (value, s1) ->
  Error value = None ->
  Primordial value = AString stored ->
  stored <> holderToken ->
  run h (Lock tl name holderToken) s = (false, s1, [CallGet name]).
Proof.
  intros Hget Herr HP Hne.
  exact (run_foreign h _ _ _ _ _ _ Hget Herr (foreign_string _ _ _ HP Hne)).
Qed.

Lemma Lock_foreign_holder_witness :
  run (redis rc0) (Lock tl5 "job1" "workerB") world1
  = (false, snd (Get rc0 "job1" world1), [CallGet "job1"])
  /\ store (snd (Get rc0 "job1" world1)) = store world1.
Proof.
  split; [| reflexivity].
  apply (Lock_foreign_holder (redis rc0) tl5 "job1" "workerB" "workerA" world1
           (snd (Get rc0 "job1" world1)) (mkOutcome None (AString "workerA")));
    [reflexivity | reflexivity | reflexivity | discriminate].
Defined.

(** C7, no reuse without the flag: with reuse disabled, when the initial
    read succeeds with the caller's own token, [Lock] answers false and the
    read is the only call it makes: the holder cannot refresh its lease. *)
Theorem Lock_no_reuse {S : Type} (h : Call -> S -> Outcome * S)
    (tl : TimeoutLocker) (name holderToken : string) (s s1 : S)
    (value : Outcome) :
  ReUse tl = false ->
  h (CallGet name) s = (value, s1) ->
  Error value = None ->
  Primordial value = AString holderToken ->
  run h (Lock tl name holderToken) s = (false, s1, [CallGet name]).
Proof.
  intros Hre Hget Herr HP.
  exact (run_no_reuse h _ _ _ _ _ _ Hget Herr (foreign_own _ _ HP) Hre).
Qed.

Lemma Lock_no_reuse_witness :
  let w := snd (fst (LockOn rc0 tl3 "job2" "x" world0)) in
  run (redis rc0) (Lock tl3 "job2" "x") w
  = (false, snd (Get rc0 "job2" w), [CallGet "job2"])
  /\ store (snd (Get rc0 "job2" w)) = store w.
Proof.
  split; [| reflexivity].
  apply (Lock_no_reuse (redis rc0) tl3 "job2" "x"
           (snd (fst (LockOn rc0 tl3 "job2" "x" world0)))
           (snd (Get rc0 "job2" (snd (fst (LockOn rc0 tl3 "job2" "x" world0)))))
           (mkOutcome None (AString "x"))); reflexivity.
Defined.

(** C10, a stored value that is not a string: when the initial read
    succeeds but [GetString] fails on its value, [Lock] does not take the
    foreign-holder branch.  What remains to run is the very program that
    remains after reading the caller's own token: false at once when reuse is
    disabled and, when reuse is enabled, the refresh with its confirmation
    or its set-if-absent fallback, either of which can end in true. *)
Theorem Lock_unreadable_value (tl : TimeoutLocker) (name holderToken : string)
    (value : Outcome) :
  Error value = None ->
  snd (GetString value) <> None ->
  after_read (Lock tl name holderToken) value
  = after_read (Lock tl name holderToken) (mkOutcome None (AString holderToken))
  /\ (ReUse tl = false ->
      forall rest, run scripted (Lock tl name holderToken) (value :: rest)
                   = (false, rest, [CallGet name]))
  /\ (ReUse tl = true ->
      run scripted (Lock tl name holderToken)
        [value; mkOutcome None (ABool true); mkOutcome None (AString holderToken)]
      = (true, [], [CallGet name; CallExpire name (TimeOut tl); CallGet name])
      /\ run scripted (Lock tl name holderToken)
           [value; mkOutcome None (ABool false); mkOutcome None (ABool true)]
         = (true, [],
            [CallGet name; CallExpire name (TimeOut tl);
             CallSetNX name holderToken (TimeOut tl)])).
Proof.
  intros Herr Hstr.
  pose proof (foreign_unreadable holderToken value Hstr) as Hf.
  split; [| split].
  - unfold Lock, after_read. rewrite Herr. cbn [Error].
    unfold foreign in Hf. destruct (GetString value) as [str err]. rewrite Hf.
    cbn [GetString Primordial]. rewrite isNil_None.
    rewrite bool_decide_eq_true_2 by done. reflexivity.
  - intros Hre rest.
    exact (run_no_reuse scripted tl name holderToken (value :: rest) value rest
             eq_refl Herr Hf Hre).
  - intros Hre. split.
    + rewrite (run_refresh scripted tl name holderToken
                 [value; mkOutcome None (ABool true);
                  mkOutcome None (AString holderToken)]
                 value
                 [mkOutcome None (ABool true); mkOutcome None (AString holderToken)]
                 (mkOutcome None (ABool true))
                 [mkOutcome None (AString holderToken)]
                 (mkOutcome None (AString holderToken)) []
                 eq_refl Herr Hf Hre eq_refl eq_refl eq_refl).
      unfold confirmed. rewrite bool_decide_eq_true_2; [reflexivity | done].
    + rewrite (run_fallback scripted tl name holderToken
                 [value; mkOutcome None (ABool false); mkOutcome None (ABool true)]
                 value
                 [mkOutcome None (ABool false); mkOutcome None (ABool true)]
                 (mkOutcome None (ABool false))
                 [mkOutcome None (ABool true)]
                 (mkOutcome None (ABool true)) []
                 eq_refl Herr Hf Hre eq_refl ltac:(discriminate) eq_refl).
      reflexivity.
Qed.

Lemma Lock_unreadable_value_witness :
  after_read (Lock tl5 "job1" "workerA") (mkOutcome None (AInt64 42))
  = after_read (Lock tl5 "job1" "workerA") (mkOutcome None (AString "workerA"))
  /\ run scripted (Lock tl5 "job1" "workerA")
       [mkOutcome None (AInt64 42); mkOutcome None (ABool true);
        mkOutcome None (AString "workerA")]
     = (true, [], [CallGet "job1"; CallExpire "job1" (TimeOut tl5); CallGet "job1"]).
Proof.
  pose proof (Lock_unreadable_value tl5 "job1" "workerA" (mkOutcome None (AInt64 42))
                eq_refl ltac:(discriminate)) as [H1 [_ H3]].
  split; [exact H1 | exact (proj1 (H3 eq_refl))].
Defined.

(** ** The coercion contract of the accessors *)

(** C9 as written does not hold: the string ["yes"] is neither a bool nor
    parseable as one, and [GetBool] fails with the parser's syntax error, not
    with the type mismatch. *)
Lemma typed_coercion_counterexample :
  GetBool (mkOutcome None (AString "yes"))
  = (false, Some (NumError "ParseBool" "yes" ErrSyntax))
  /\ ~ coercion_contract always_mismatch GetBool asBool (Some ParseBool) false.
Proof.
  split; [reflexivity |].
  intros H. specialize (H (mkOutcome None (AString "yes"))). cbn in H.
  discriminate H.
Qed.

(** C9, amended: each of [GetInt64], [GetFloat64], [GetBool] and [GetString]
    returns a primordial value of its native type unchanged with no error;
    the three numeric and boolean accessors parse a string and return the
    parsed value when the parse succeeds and the parser's own error when it
    fails; every other value fails with the type mismatch error. *)
Theorem typed_coercion (ParseInt : string -> Z -> Z -> Z * option error)
    (ParseFloat : string -> Z -> float * option error) :
  coercion_contract id (GetInt64 ParseInt) asInt64
    (Some (fun str => ParseInt str 10 64)) 0
  /\ coercion_contract id (GetFloat64 ParseFloat) asFloat64
       (Some (fun str => ParseFloat str 64)) 0%float
  /\ coercion_contract id GetBool asBool (Some ParseBool) false
  /\ coercion_contract id GetString asString None Null.
Proof.
  repeat split; intros [err prim]; destruct prim as [| b | i | f | str];
    cbn [Primordial asInt64 asFloat64 asBool asString]; try reflexivity.
  - unfold GetInt64; cbn [Primordial].
    destruct (ParseInt str 10 64) as [v [e|]]; reflexivity.
  - unfold GetFloat64; cbn [Primordial].
    destruct (ParseFloat str 64) as [v [e|]]; reflexivity.
  - unfold GetBool; cbn [Primordial].
    destruct (ParseBool str) as [v [e|]]; reflexivity.
Qed.

(** ** The real client on the backend model *)

Lemma arrive_emit c w :
  arrive (emit c w) = (fst (arrive w), emit c (on_arrival w)).
Proof.
  unfold on_arrival, arrive, emit. cbn.
  destruct (net w) eqn:E; cbn; rewrite ?E; reflexivity.
Qed.

Lemma on_arrival_store w : store (on_arrival w) = store w.
Proof. unfold on_arrival, arrive. destruct (net w); reflexivity. Qed.

Lemma on_arrival_wire w : wire (on_arrival w) = wire w.
Proof. unfold on_arrival, arrive. destruct (net w); reflexivity. Qed.

Lemma on_arrival_clock w : clock w <= clock (on_arrival w).
Proof. unfold on_arrival, arrive. destruct (net w); cbn; lia. Qed.

Lemma alive_emit c w key : alive (emit c w) key = alive w key.
Proof. reflexivity. Qed.

Lemma serve_SetNX_wire key value ttl w : wire (snd (serve_SetNX key value ttl w)) = wire w.
Proof. unfold serve_SetNX. destruct (alive w key); reflexivity. Qed.

Lemma serve_Expire_wire key ttl w : wire (snd (serve_Expire key ttl w)) = wire w.
Proof. unfold serve_Expire. destruct (alive w key); reflexivity. Qed.

Lemma Int63n_range n w : 0 < n -> 0 <= fst (Int63n n w) < n.
Proof.
  intros Hn. unfold Int63n. destruct (rng w) as [| r rest]; cbn; [lia |].
  apply Z.mod_pos_bound; exact Hn.
Qed.

Lemma Int63n_wire n w : wire (snd (Int63n n w)) = wire w.
Proof. unfold Int63n. destruct (rng w); reflexivity. Qed.

(** What [Get] answers and the world it leaves. *)
Lemma Get_unfold rc key w :
  Get rc key w
  = (match fst (arrive w) with
     | Some f => mkOutcome (Some (BackendError (fault_text f))) ANil
     | None =>
         match alive (on_arrival w) (GetKey rc key) with
         | Some v => mkOutcome None (AString v)
         | None => mkOutcome (Some Nil) ANil
         end
     end,
     emit (GET (GetKey rc key)) (on_arrival w)).
Proof.
  unfold Get, Runner_Get. rewrite arrive_emit.
  destruct (fst (arrive w)) as [[text | text] |]; try reflexivity.
  unfold serve_Get. rewrite alive_emit.
  destruct (alive (on_arrival w) (GetKey rc key)); reflexivity.
Qed.

Lemma Get_store rc key w : store (snd (Get rc key w)) = store w.
Proof. rewrite Get_unfold. cbn. apply on_arrival_store. Qed.

(** A read without error returns the value held by the entry of the key. *)
Lemma Get_found rc key w oc w1 :
  Get rc key w = (oc, w1) ->
  Error oc = None ->
  exists e, store w1 !! GetKey rc key = Some e /\ Primordial oc = AString (held e).
Proof.
  rewrite Get_unfold. intros [= <- <-]. cbn [store emit].
  rewrite on_arrival_store.
  destruct (fst (arrive w)); [discriminate |].
  unfold alive. rewrite on_arrival_store.
  destruct (store w !! GetKey rc key) as [e|]; [| discriminate].
  destruct (clock (on_arrival w) <? deadline e); [| discriminate].
  intros _. exists e. split; reflexivity.
Qed.

(** A set-if-absent that reports success left the key holding the value. *)
Lemma SetNX_took rc key value expiration w oc w1 :
  SetNX rc key value expiration w = (oc, w1) ->
  GetBool oc = (true, None) ->
  exists e, store w1 !! GetKey rc key = Some e /\ held e = value.
Proof.
  unfold SetNX, Drift, Runner_SetNX.
  destruct (Int63n 60 w) as [drift w0]. rewrite arrive_emit.
  destruct (fst (arrive w0)) as [[text | text] |].
  - intros [= <- <-]. discriminate.
  - intros [= <- <-]. discriminate.
  - unfold serve_SetNX. rewrite alive_emit.
    destruct (alive (on_arrival w0) (GetKey rc key)).
    + intros [= <- <-]. discriminate.
    + intros [= <- <-] _. cbn [store set_store]. eexists. split.
      * apply lookup_insert_eq.
      * reflexivity.
Qed.

Lemma redis_wire rc c w :
  wire (snd (redis rc c w)) = (wire w ++ [command_of rc c w])%list.
Proof.
  destruct c as [key | key value expiration | key duration]; cbn [redis command_of].
  - rewrite Get_unfold. cbn. rewrite on_arrival_wire. reflexivity.
  - unfold SetNX, Drift, Runner_SetNX.
    pose proof (Int63n_wire 60 w) as Hw.
    destruct (Int63n 60 w) as [drift w0]. cbn [fst snd] in *. rewrite arrive_emit.
    destruct (fst (arrive w0)) as [[text | text] |]; cbn [snd].
    + cbn. rewrite on_arrival_wire, Hw. reflexivity.
    + rewrite serve_SetNX_wire. cbn. rewrite on_arrival_wire, Hw. reflexivity.
    + pose proof (serve_SetNX_wire (GetKey rc key) (GetValue value)
                    (wrap_int64 (Nanoseconds expiration + drift))
                    (emit (SETNX (GetKey rc key) (GetValue value)
                             (wrap_int64 (Nanoseconds expiration + drift)))
                       (on_arrival w0))) as Hs.
      destruct (serve_SetNX _ _ _ _) as [ok w2]. cbn [snd] in *.
      rewrite Hs. cbn. rewrite on_arrival_wire, Hw. reflexivity.
  - unfold Expire, Runner_Expire. rewrite arrive_emit.
    destruct (fst (arrive w)) as [[text | text] |]; cbn [snd].
    + cbn. rewrite on_arrival_wire. reflexivity.
    + rewrite serve_Expire_wire. cbn. rewrite on_arrival_wire. reflexivity.
    + pose proof (serve_Expire_wire (GetKey rc key) duration
                    (emit (EXPIRE (GetKey rc key) duration) (on_arrival w))) as Hs.
      destruct (serve_Expire _ _ _) as [ok w2]. cbn [snd] in *.
      rewrite Hs. cbn. rewrite on_arrival_wire. reflexivity.
Qed.

(** The commands of a run, when every call of the program satisfies [P] and
    every such call puts a command satisfying [Q] on the wire. *)
Lemma run_wire {R : Type} rc (P : Call -> Prop) (Q : Command -> Prop) :
  (forall c w, P c -> Q (command_of rc c w)) ->
  forall (p : Prog R) w, OnlyCalls P p ->
    exists cmds, wire (snd (fst (run (redis rc) p w))) = (wire w ++ cmds)%list
                 /\ Forall Q cmds.
Proof.
  intros HPQ p. induction p as [r | c k IH]; intros w Hp.
  - exists []. cbn. rewrite app_nil_r. split; [reflexivity | constructor].
  - destruct Hp as [Hc Hk]. cbn [run]. pose proof (redis_wire rc c w) as Hw.
    destruct (redis rc c w) as [oc w1]. cbn [snd] in Hw.
    destruct (IH oc w1 (Hk oc)) as [cmds [Hcmds HQ]].
    destruct (run (redis rc) (k oc) w1) as [[r w2] tr]. cbn [fst snd] in *.
    exists (command_of rc c w :: cmds). split.
    + rewrite Hcmds, Hw, <- app_assoc. reflexivity.
    + constructor; [apply HPQ; exact Hc | exact HQ].
Qed.

(** ** The expiry handed to the backend *)

Lemma Lock_only_calls tl name topic :
  OnlyCalls (lock_call tl name topic) (Lock tl name topic).
Proof.
  unfold Lock, lock_call. cbn [OnlyCalls]. split; [auto |]. intros value.
  assert (Hnx : forall nx : Outcome,
             OnlyCalls (lock_call tl name topic)
               (let '(bol, err) := GetBool nx in
                if bol && isNil err then Ret true else Ret false)).
  { intros nx. destruct (GetBool nx) as [bol err].
    destruct (bol && isNil err); exact I. }
  destruct (Error value) as [e|].
  - destruct (bool_decide (e = Nil)); cbn [OnlyCalls]; [| exact I].
    split; [auto | exact Hnx].
  - destruct (GetString value) as [str err].
    destruct (isNil err && negb (bool_decide (str = topic))); [exact I |].
    destruct (negb (ReUse tl)); [exact I |]. cbn [OnlyCalls].
    split; [auto |]. intros expire. destruct (GetBool expire) as [bol err2].
    destruct (bol && isNil err2); cbn [OnlyCalls].
    + split; [auto |]. intros after. destruct (isNil (Error after)); [| exact I].
      destruct (GetString after) as [str' err'].
      destruct (isNil err' && bool_decide (str' = topic)); exact I.
    + split; [auto | exact Hnx].
Qed.

Lemma wrap_int64_small z : MinInt64 <= z <= MaxInt64 -> wrap_int64 z = z.
Proof.
  unfold MinInt64, MaxInt64, wrap_int64. intros Hz.
  rewrite Z.mod_small by lia. lia.
Qed.

Lemma lock_call_leased rc tl name topic c w :
  lock_call tl name topic c -> leased rc tl name topic (command_of rc c w).
Proof.
  intros [-> | [-> | ->]]; cbn; [reflexivity | | split; reflexivity].
  split; [reflexivity |]. split; [reflexivity |].
  unfold Drift. pose proof (Int63n_range 60 w ltac:(lia)) as Hd.
  destruct (Int63n 60 w) as [drift w0]. cbn [fst] in *.
  exists drift. split; [exact Hd |]. split; [reflexivity |].
  intros Hl. apply wrap_int64_small. unfold Nanoseconds, MinInt64, MaxInt64 in *. lia.
Qed.

(** C8 as written does not hold on the set-if-absent path: with a lease of
    five seconds, two successful acquisitions hand 5000000007 and 5000000010
    nanoseconds to the backend, neither equal to the lease nor to one
    another. *)
Lemma lease_exact_counterexample :
  let first := LockOn rc0 tl5 "job1" "workerA" world0 in
  let second_try := LockOn rc0 tl5 "job1" "workerB" (pass (6 * second) world1) in
  fst (fst first) = true
  /\ fst (fst second_try) = true
  /\ TimeOut tl5 = 5000000000
  /\ requested_ttls (wire (snd (fst second_try))) = [5000000007; 5000000010]
  /\ ~ Forall (fun ttl => ttl = TimeOut tl5)
         (requested_ttls (wire (snd (fst second_try)))).
Proof.
  cbv zeta. repeat split; try reflexivity.
  intros H. apply Forall_cons in H as [H _]. vm_compute in H. discriminate H.
Qed.

(** C8, amended: every command [Lock] hands to the backend addresses the
    namespaced key; an expiry refresh carries exactly the configured lease; a
    set-if-absent (initial acquisition or refresh fallback) carries the lease
    plus a drift of 0 to 59 nanoseconds drawn for that call, so two
    acquisitions with the same lease may request different expirations. *)
Theorem lease_with_drift (rc : RedisClient) (tl : TimeoutLocker)
    (name holderToken : string) (w : World) :
  exists cmds : list Command,
    wire (snd (fst (LockOn rc tl name holderToken w))) = (wire w ++ cmds)%list
    /\ Forall (leased rc tl name holderToken) cmds.
Proof.
  unfold LockOn.
  apply (run_wire rc (lock_call tl name holderToken) (leased rc tl name holderToken)).
  - intros c w0. apply lock_call_leased.
  - apply Lock_only_calls.
Qed.

(** ** Mutual exclusion on the backend model *)

(** A successful [Lock] leaves the key holding the caller's token. *)
Lemma Lock_true_holds rc tl name topic w w1 tr :
  LockOn rc tl name topic w = (true, w1, tr) ->
  exists e, store w1 !! GetKey rc name = Some e /\ held e = topic.
Proof.
  intros H. apply run_true_last in H
    as [s0 [[nx [Hnx Hok]] | [after [Hafter [Herr Hstr]]]]].
  - exact (SetNX_took _ _ _ _ _ _ _ Hnx Hok).
  - destruct (Get_found _ _ _ _ _ Hafter Herr) as [e [He HP]].
    exists e. split; [exact He |].
    unfold GetString in Hstr. rewrite HP in Hstr. congruence.
Qed.

Lemma holder_held rc name w e v :
  store w !! GetKey rc name = Some e -> holder rc name w = Some v -> v = held e.
Proof.
  unfold holder, alive. rewrite on_arrival_store. intros ->.
  destruct (clock (on_arrival w) <? deadline e); congruence.
Qed.

(** While the entry is live, a second caller with another token is turned
    away after its read, faulty or not. *)
Lemma Lock_turned_away rc tl name topic w e :
  store w !! GetKey rc name = Some e ->
  held e <> topic ->
  is_Some (holder rc name w) ->
  LockOn rc tl name topic w = (false, snd (Get rc name w), [CallGet name]).
Proof.
  intros He Hne [v Hv]. pose proof (holder_held _ _ _ _ _ He Hv) as ->.
  pose proof (Get_unfold rc name w) as HG. unfold holder in Hv. rewrite Hv in HG.
  unfold LockOn. destruct (fst (arrive w)) as [f|].
  - apply (run_read_error (redis rc) tl name topic w
             (mkOutcome (Some (BackendError (fault_text f))) ANil) _
             (BackendError (fault_text f))); [| reflexivity | discriminate].
    cbn [redis]. rewrite HG. reflexivity.
  - apply (run_foreign (redis rc) tl name topic w (mkOutcome None (AString (held e))));
      [| reflexivity
       | exact (foreign_string topic (mkOutcome None (AString (held e))) (held e)
                  eq_refl Hne)].
    cbn [redis]. rewrite HG. reflexivity.
Qed.

Lemma alive_later w w' key :
  store w' = store w -> clock w <= clock w' ->
  alive w key = None -> alive w' key = None.
Proof.
  unfold alive. intros -> Hc. destruct (store w !! key) as [e|]; [| done].
  destruct (clock w <? deadline e) eqn:E1; [discriminate |]. intros _.
  apply Z.ltb_ge in E1. rewrite (proj2 (Z.ltb_ge _ _)) by lia. reflexivity.
Qed.

Lemma arrive_fault_ext w w' : net w' = net w -> fst (arrive w') = fst (arrive w).
Proof. unfold arrive. intros ->. destruct (net w); reflexivity. Qed.

Lemma alive_on_arrival_ext w w' key :
  store w' = store w -> clock w' = clock w -> net w' = net w ->
  alive (on_arrival w') key = alive (on_arrival w) key.
Proof.
  unfold on_arrival, arrive, alive. intros Hs Hc ->.
  destruct (net w); cbn; rewrite Hs, Hc; reflexivity.
Qed.

Lemma SetNX_absent rc key value expiration w :
  fst (arrive w) = None ->
  alive (on_arrival w) (GetKey rc key) = None ->
  GetBool (fst (SetNX rc key value expiration w)) = (true, None).
Proof.
  intros Hf Ha. unfold SetNX, Drift, Runner_SetNX.
  assert (Hw0 : fst (arrive (snd (Int63n 60 w))) = None
                /\ alive (on_arrival (snd (Int63n 60 w))) (GetKey rc key) = None).
  { rewrite <- Hf, <- Ha. unfold Int63n.
    destruct (rng w); [done |]. cbn [snd].
    split; [apply arrive_fault_ext | apply alive_on_arrival_ext]; reflexivity. }
  destruct (Int63n 60 w) as [drift w0]. cbn [snd] in Hw0. destruct Hw0 as [Hf0 Ha0].
  rewrite arrive_emit, Hf0. unfold serve_SetNX. rewrite alive_emit, Ha0. reflexivity.
Qed.

Lemma calm_first n w :
  calm (S n) w -> fst (arrive w) = None /\ calm n (on_arrival w).
Proof.
  unfold calm, on_arrival, arrive. destruct (net w) as [| st rest] eqn:E; cbn.
  - intros _. rewrite E. split; [reflexivity |]. rewrite take_nil. constructor.
  - intros H. apply Forall_cons in H as [H1 H2]. split; assumption.
Qed.

(** Once the entry is gone and the network is calm, the next caller takes
    the lock. *)
Lemma Lock_after_expiry rc tl name topic w :
  holder rc name w = None ->
  calm 2 w ->
  fst (fst (LockOn rc tl name topic w)) = true.
Proof.
  intros Hh Hcalm. pose proof (Get_unfold rc name w) as HG.
  apply calm_first in Hcalm as [Hf1 Hcalm]. apply calm_first in Hcalm as [Hf2' _].
  unfold holder in Hh. rewrite Hf1, Hh in HG.
  set (w1 := emit (GET (GetKey rc name)) (on_arrival w)) in *.
  assert (Hf2 : fst (arrive w1) = None).
  { unfold w1. rewrite arrive_emit. exact Hf2'. }
  assert (Ha2 : alive (on_arrival w1) (GetKey rc name) = None).
  { apply (alive_later (on_arrival w)); [| | exact Hh].
    - rewrite on_arrival_store. reflexivity.
    - pose proof (on_arrival_clock w1). exact H. }
  pose proof (SetNX_absent rc name topic (TimeOut tl) w1 Hf2 Ha2) as Hnx.
  unfold LockOn.
  rewrite (run_absent (redis rc) tl name topic w (mkOutcome (Some Nil) ANil) w1
             (fst (SetNX rc name topic (TimeOut tl) w1))
             (snd (SetNX rc name topic (TimeOut tl) w1))).
  - cbn [fst]. apply bool_decide_eq_true. exact Hnx.
  - cbn [redis]. exact HG.
  - reflexivity.
  - cbn [redis]. destruct (SetNX rc name topic (TimeOut tl) w1); reflexivity.
Qed.

(** C1, mutual exclusion: let [Lock(name, A)] return true and let a world
    [w'] carry under the key of [name] the entry that call left, at any later
    clock, network schedule and generator state.  As long as the entry has
    not expired when the read of [Lock(name, B)] is served, that call with
    any other token [B] (and any lease or reuse setting) returns false after
    its read and leaves the store as it is, so the same holds for every
    further call, with no refresh by [A]; it can return true only once the
    entry has expired, and then does so on a calm network. *)
Theorem mutual_exclusion (rc : RedisClient) (tlA tlB : TimeoutLocker)
    (name A B : string) (w wA w' : World) (trA : list Call) :
  A <> B ->
  LockOn rc tlA name A w = (true, wA, trA) ->
  store w' !! GetKey rc name = store wA !! GetKey rc name ->
  (is_Some (holder rc name w') ->
     LockOn rc tlB name B w' = (false, snd (Get rc name w'), [CallGet name])
     /\ store (snd (Get rc name w')) = store w')
  /\ (fst (fst (LockOn rc tlB name B w')) = true -> holder rc name w' = None)
  /\ (holder rc name w' = None -> calm 2 w' ->
      fst (fst (LockOn rc tlB name B w')) = true).
Proof.
  intros Hne HA Hstore.
  destruct (Lock_true_holds _ _ _ _ _ _ _ HA) as [e [He Hheld]].
  rewrite <- Hstore in He.
  assert (Hne' : held e <> B) by congruence.
  split; [| split].
  - intros Hlive. split.
    + exact (Lock_turned_away rc tlB name B w' e He Hne' Hlive).
    + apply Get_store.
  - intros Htrue. destruct (holder rc name w') as [v|] eqn:Hh; [| reflexivity].
    rewrite (Lock_turned_away rc tlB name B w' e He Hne') in Htrue
      by (rewrite Hh; eauto).
    discriminate Htrue.
  - apply Lock_after_expiry.
Qed.

Lemma mutual_exclusion_witness :
  let w' := pass (4 * second) world1 in
  let late := pass (6 * second) world1 in
  LockOn rc0 tl5 "job1" "workerA" world0 = (true, world1, [CallGet "job1"; CallSetNX "job1" "workerA" (5 * second)])
  /\ holder rc0 "job1" w' = Some "workerA"
  /\ LockOn rc0 tl3 "job1" "workerB" w' = (false, snd (Get rc0 "job1" w'), [CallGet "job1"])
  /\ store (snd (Get rc0 "job1" w')) = store w'
  /\ holder rc0 "job1" late = None
  /\ fst (fst (LockOn rc0 tl3 "job1" "workerB" late)) = true.
Proof.
  cbv zeta.
  pose proof (mutual_exclusion rc0 tl5 tl3 "job1" "workerA" "workerB" world0 world1
                (pass (4 * second) world1) _ ltac:(discriminate) eq_refl eq_refl)
    as [H1 _].
  pose proof (mutual_exclusion rc0 tl5 tl3 "job1" "workerA" "workerB" world0 world1
                (pass (6 * second) world1) _ ltac:(discriminate) eq_refl eq_refl)
    as [_ [_ H3]].
  split; [reflexivity |]. split; [reflexivity |].
  destruct (H1 ltac:(eexists; reflexivity)) as [H1a H1b].
  split; [exact H1a |]. split; [exact H1b |].
  split; [reflexivity |].
  apply H3; [reflexivity | constructor].
Defined.

(** * Further properties of the package *)

(** ** Strings *)

Lemma string_app_assoc (a b c : string) : (a ++ b) ++ c = a ++ (b ++ c).
Proof.
  induction a as [| ch a IH]; [reflexivity |].
  change (String ch ((a ++ b) ++ c) = String ch (a ++ (b ++ c))).
  rewrite IH. reflexivity.
Qed.

Lemma string_length_app (a b : string) :
  String.length (a ++ b) = (String.length a + String.length b)%nat.
Proof.
  induction a as [| ch a IH]; [reflexivity |].
  change (S (String.length (a ++ b)) = S (String.length a + String.length b)).
  rewrite IH. reflexivity.
Qed.

Lemma concat_length_ge (sep k : string) (l : list string) :
  In k l -> (String.length k <= String.length (String.concat sep l))%nat.
Proof.
  induction l as [| x l IH]; [intros [] |].
  intros [-> | Hin]; destruct l as [| y l]; cbn [String.concat].
  - lia.
  - rewrite string_length_app. lia.
  - destruct Hin.
  - rewrite !string_length_app. specialize (IH Hin). cbn [String.concat] in IH. lia.
Qed.

(** ** Key namespacing *)

Lemma GetKey_cancel rc a b : GetKey rc a = GetKey rc b -> a = b.
Proof.
  unfold GetKey. intros H.
  repeat (apply (inj (String.append _)) in H). exact H.
Qed.

(** X1: for one client, [GetKey] maps different names to different keys, so
    two lock names never share a backend entry. *)
Theorem GetKey_injective (rc : RedisClient) (a b : string) :
  GetKey rc a = GetKey rc b <-> a = b.
Proof. split; [apply GetKey_cancel | intros ->; reflexivity]. Qed.

(** X2: the key is the plain concatenation with dashes, so a dash inside a
    part moves freely across the boundaries: clients with different
    application names and namespaces, or one client with different names,
    can address the same key. *)
Theorem GetKey_ambiguous (app ns x raw : string) :
  GetKey {| opt := {| AppName := app ++ "-" ++ x; NameSpace := ns |} |} raw
  = GetKey {| opt := {| AppName := app; NameSpace := x ++ "-" ++ ns |} |} raw
  /\ GetKey {| opt := {| AppName := app; NameSpace := ns ++ "-" ++ x |} |} raw
     = GetKey {| opt := {| AppName := app; NameSpace := ns |} |} (x ++ "-" ++ raw).
Proof.
  unfold GetKey. cbn [opt AppName NameSpace].
  rewrite !string_app_assoc. split; reflexivity.
Qed.

Lemma GetKeys_map rc raw : GetKeys rc raw = map (GetKeyOf rc) raw.
Proof.
  unfold GetKeys.
  assert (H : forall acc, fold_left (fun keys r => (keys ++ [GetKeyOf rc r])%list) raw acc
                          = (acc ++ map (GetKeyOf rc) raw)%list).
  { induction raw as [| r raw IH]; intros acc; cbn.
    - rewrite app_nil_r. reflexivity.
    - rewrite IH, <- app_assoc. reflexivity. }
  apply (H []).
Qed.

(** X3: [Del], [Exists] and [MGet] hand the backend one key whatever the
    number of names they are given, the prefix followed by the bracketed
    list of the names; it is never the key under which [Get], [SetNX] or
    [Expire] address any of those names. *)
Theorem hooks_of_miss (rc : RedisClient) (keys : list string) (k : string) :
  In k keys ->
  hooks_of rc keys = [GetKey rc ("[" ++ String.concat " " keys ++ "]")]
  /\ ~ In (GetKey rc k) (hooks_of rc keys).
Proof.
  intros Hin. unfold hooks_of. rewrite GetKeys_map. cbn [map GetKeyOf Sprint].
  split; [reflexivity |].
  intros [H | []]. apply GetKey_cancel in H.
  apply (f_equal String.length) in H. unfold Sprint in H.
  rewrite !string_length_app in H. cbn [String.length] in H.
  pose proof (concat_length_ge " " k keys Hin). lia.
Qed.

Lemma hooks_of_miss_witness :
  hooks_of rc0 ["a"; "b"] = ["app-ns-[a b]"]
  /\ ~ In "app-ns-a" (hooks_of rc0 ["a"; "b"]).
Proof.
  apply (hooks_of_miss rc0 ["a"; "b"] "a"). left; reflexivity.
Defined.

(** ** [MSet] *)

Lemma MSet_kvs_length f rc pairs :
  (Nat.Odd (length pairs) -> MSet_kvs f rc pairs = None)
  /\ (Nat.Even (length pairs) -> Forall (fun v => v <> ANil) pairs ->
      is_Some (MSet_kvs f rc pairs)).
Proof.
  assert (H : forall n pairs, (length pairs <= n)%nat ->
              (Nat.Odd (length pairs) -> MSet_kvs f rc pairs = None)
              /\ (Nat.Even (length pairs) -> Forall (fun v => v <> ANil) pairs ->
                  is_Some (MSet_kvs f rc pairs))).
  { induction n as [| n IH]; intros [| k [| v rest]] Hlen; cbn [length] in *;
      try lia; cbn [MSet_kvs].
    - split; [intros [m Hm]; lia | eauto].
    - split; [intros [m Hm]; lia | eauto].
    - split; [reflexivity | intros [m Hm]; lia].
    - destruct (IH rest ltac:(lia)) as [IHo IHe]. split.
      + intros Hodd. rewrite IHo.
        * destruct (GetValueOf v); reflexivity.
        * destruct Hodd as [m Hm]. exists (m - 1)%nat. lia.
      + intros Heven Hall. inversion Hall as [| ? ? _ Hall']; subst.
        inversion Hall' as [| ? ? Hv Hrest]; subst.
        destruct v; try congruence; cbn [GetValueOf];
          (destruct IHe as [kvs ->];
           [destruct Heven as [m Hm]; exists (m - 1)%nat; lia | exact Hrest | eauto]). }
  apply (H (length pairs)). lia.
Qed.

(** X4: [MSet] panics on an odd number of arguments; when it reaches the
    backend, the command carries the arguments exactly as given: the
    namespaced keys it computed are dropped.  A key written through [MSet]
    is therefore never the key the other methods address under the same
    name. *)
Theorem MSet_hands_pairs (f : Any -> string) (rc : RedisClient) (pairs : list Any) :
  (Nat.Odd (length pairs) -> MSet_args f rc pairs = None)
  /\ (forall args, MSet_args f rc pairs = Some args -> args = pairs)
  /\ (Nat.Even (length pairs) -> Forall (fun v => v <> ANil) pairs ->
      MSet_args f rc pairs = Some pairs)
  /\ (forall k, GetKey rc k <> k).
Proof.
  destruct (MSet_kvs_length f rc pairs) as [Hodd Heven]. unfold MSet_args.
  split; [| split; [| split]].
  - intros H. rewrite (Hodd H). reflexivity.
  - intros args. destruct (MSet_kvs f rc pairs); congruence.
  - intros H1 H2. destruct (Heven H1 H2) as [kvs ->]. reflexivity.
  - intros k H. apply (f_equal String.length) in H. unfold GetKey in H.
    rewrite !string_length_app in H. cbn [String.length] in H. lia.
Qed.

(** ** [Ping] *)

(** X5: [Ping] answers true whatever the reply, also when the command
    failed: both branches return true. *)
Theorem Ping_always_true (text : string) (err : option error) : Ping text err = true.
Proof. unfold Ping. destruct (Contains text "PONG" && bool_decide (err = Some Nil)); reflexivity. Qed.

(** ** Initialisation *)

Lemma Init_marks_once opt p : once_done (snd (InitRedisClient opt p)) = true.
Proof.
  unfold InitRedisClient. destruct (once_done p) eqn:Hp; [exact Hp |].
  destruct opt as [o |]; [destruct (Addr o) as [| a [| b l]] |]; reflexivity.
Qed.

Lemma Init_again opt1 opt2 p :
  InitRedisClient opt2 (snd (InitRedisClient opt1 p))
  = (None, snd (InitRedisClient opt1 p)).
Proof.
  unfold InitRedisClient at 1. rewrite Init_marks_once. reflexivity.
Qed.

(** X6: whatever the first call of [InitRedisClient] did, every later call
    returns nil and changes nothing, however many follow. *)
Theorem InitRedisClient_once (opt1 : option Settings) (later : list (option Settings))
    (p : Process) :
  let p1 := snd (InitRedisClient opt1 p) in
  Forall (fun opt => fst (InitRedisClient opt p1) = None) later
  /\ fold_left (fun q opt => snd (InitRedisClient opt q)) later p1 = p1.
Proof.
  cbv zeta. split.
  - apply Forall_forall. intros opt _. rewrite Init_again. reflexivity.
  - induction later as [| opt later IH]; [reflexivity |].
    cbn [fold_left]. rewrite Init_again. exact IH.
Qed.

(** X7: a first call that fails (nil options or no address) uses up the
    [once]: a later call with good settings reports no error and still
    leaves the process without a client. *)
Theorem InitRedisClient_failure_sticks (opt1 opt2 : option Settings) :
  fst (InitRedisClient opt1 fresh) <> None ->
  fst (InitRedisClient opt2 (snd (InitRedisClient opt1 fresh))) = None
  /\ GetRedis (snd (InitRedisClient opt2 (snd (InitRedisClient opt1 fresh)))) = None.
Proof.
  intros Hfail. rewrite Init_again. cbn [fst snd]. split; [reflexivity |].
  unfold InitRedisClient in *. cbn [fresh once_done] in *.
  destruct opt1 as [o |]; [destruct (Addr o) as [| a [| b l]] |];
    cbn in *; congruence.
Qed.

Lemma InitRedisClient_failure_sticks_witness :
  let good := Some {| names := opt rc0; Addr := ["10.0.0.1:6379"] |} in
  fst (InitRedisClient None fresh) = Some (ErrorsNew "options is null")
  /\ fst (InitRedisClient good (snd (InitRedisClient None fresh))) = None
  /\ GetRedis (snd (InitRedisClient good (snd (InitRedisClient None fresh)))) = None.
Proof.
  cbv zeta. split; [reflexivity |].
  apply (InitRedisClient_failure_sticks None). discriminate.
Defined.

(** X8: on a fresh process [InitRedisClient] succeeds exactly when the
    settings name at least one address; [Runner] then is the single-node
    handle on that address when there is one address and the cluster handle
    on all of them otherwise, and keys are formed from the settings'
    names. *)
Theorem InitRedisClient_topology (o : Settings) :
  let r := InitRedisClient (Some o) fresh in
  (fst r = None <-> Addr o <> [])
  /\ (GetRedis (snd r) ≫= Runner
      = match Addr o with
        | [] => None
        | [a] => Some (OnNode a)
        | l => Some (OnCluster l)
        end)
  /\ (client <$> GetRedis (snd r)
      = match Addr o with
        | [] => None
        | _ => Some {| opt := names o |}
        end).
Proof.
  cbv zeta. unfold InitRedisClient. cbn [fresh once_done].
  destruct (Addr o) as [| a [| b l]]; cbn; (split; [split; [done | done] | done]).
Qed.

(** ** The result wrapper, further *)

(** X9: an outcome built by the client carries the error or the value,
    never both; on an outcome with an error every typed accessor fails with
    the type mismatch, not with the backend's error, which only the [Error]
    field holds. *)
Theorem Outcome_wrap (ParseInt : string -> Z -> Z -> Z * option error)
    (ParseFloat : string -> Z -> float * option error)
    (value : Any) (err : option error) :
  let oc := rc_Outcome value err in
  let mismatch := Some (ErrorsNew TypeMatchError) in
  Error oc = err
  /\ (err = None -> Primordial oc = value)
  /\ (err <> None ->
      Primordial oc = ANil
      /\ GetString oc = (Null, mismatch)
      /\ GetBool oc = (false, mismatch)
      /\ GetInt64 ParseInt oc = (0, mismatch)
      /\ GetFloat64 ParseFloat oc = (0%float, mismatch)).
Proof.
  cbv zeta. destruct err as [e |]; cbn; repeat split; try done.
Qed.

(** ** [Drift] *)

Lemma wrap_int64_range z : MinInt64 <= wrap_int64 z <= MaxInt64.
Proof.
  unfold MinInt64, MaxInt64, wrap_int64.
  pose proof (Z.mod_pos_bound (z + 2 ^ 63) (2 ^ 64) ltac:(lia)). lia.
Qed.

Lemma Int63n_rng n w : rng (snd (Int63n n w)) = tail (rng w).
Proof. unfold Int63n. destruct (rng w) as [| r rest] eqn:E; cbn; [exact E | reflexivity]. Qed.

Lemma Int63n_store n w : store (snd (Int63n n w)) = store w.
Proof. unfold Int63n. destruct (rng w); reflexivity. Qed.

Lemma Int63n_clock n w : clock (snd (Int63n n w)) = clock w.
Proof. unfold Int63n. destruct (rng w); reflexivity. Qed.

Lemma Int63n_net n w : net (snd (Int63n n w)) = net w.
Proof. unfold Int63n. destruct (rng w); reflexivity. Qed.

(** X10: [Drift] always returns an [int64]; for a duration at least 59
    nanoseconds below the largest one it returns the duration lengthened by 0
    to 59 nanoseconds, never shortened; it draws one number from the
    generator and touches nothing else. *)
Theorem Drift_range (duration : Z) (w : World) :
  MinInt64 <= fst (Drift duration w) <= MaxInt64
  /\ (MinInt64 <= duration <= MaxInt64 - 59 ->
      duration <= fst (Drift duration w) <= duration + 59)
  /\ rng (snd (Drift duration w)) = tail (rng w)
  /\ store (snd (Drift duration w)) = store w
  /\ clock (snd (Drift duration w)) = clock w
  /\ wire (snd (Drift duration w)) = wire w.
Proof.
  unfold Drift.
  pose proof (Int63n_range 60 w ltac:(lia)) as Hd.
  pose proof (Int63n_rng 60 w) as Hr. pose proof (Int63n_store 60 w) as Hs.
  pose proof (Int63n_clock 60 w) as Hc. pose proof (Int63n_wire 60 w) as Hw.
  destruct (Int63n 60 w) as [drift w0]. cbn [fst snd] in *.
  split; [apply wrap_int64_range |]. split; [| auto].
  intros Hl. rewrite wrap_int64_small; unfold Nanoseconds, MinInt64, MaxInt64 in *; lia.
Qed.

(** X11: the addition in [Drift] is not guarded: for each of the 59 largest
    durations some draw makes the sum overflow, and [Drift] then returns a
    negative duration, [2^64] nanoseconds below the sum. *)
Theorem Drift_overflow (duration : Z) (w : World) :
  MaxInt64 - 59 < duration <= MaxInt64 ->
  hd 0 (rng w) = 59 ->
  fst (Drift duration w) = duration + 59 - 2 ^ 64
  /\ fst (Drift duration w) < 0.
Proof.
  intros Hd Hr. unfold Drift, Int63n. destruct (rng w) as [| r rest]; cbn in Hr; [lia |].
  subst r. cbn [fst]. unfold Nanoseconds, wrap_int64, MaxInt64 in *.
  change (59 mod 60) with 59.
  assert (E : (duration + 59 + 2 ^ 63) mod 2 ^ 64 = duration + 59 + 2 ^ 63 - 2 ^ 64).
  { symmetry. apply (Z.mod_unique_pos _ _ 1); lia. }
  rewrite E. lia.
Qed.

Lemma Drift_overflow_witness :
  fst (Drift MaxInt64 (pass 0 {| store := ∅; clock := 0; net := []; rng := [59]; wire := [] |}))
  = MaxInt64 + 59 - 2 ^ 64
  /\ fst (Drift MaxInt64 (pass 0 {| store := ∅; clock := 0; net := []; rng := [59]; wire := [] |})) < 0.
Proof.
  apply Drift_overflow; [unfold MaxInt64; lia | reflexivity].
Defined.

(** ** The lock, further *)

(** X12: [Lock] is one round without retry: against any handler its calls
    are one of four sequences, the read alone, the read and a set-if-absent,
    or the read, the refresh and then the confirming read or the
    set-if-absent; no call names another key, token or expiry than its
    own. *)
Theorem Lock_traces {S : Type} (h : Call -> S -> Outcome * S)
    (tl : TimeoutLocker) (name holderToken : string) (s : S) :
  In (snd (run h (Lock tl name holderToken) s)) (lock_traces tl name holderToken).
Proof.
  unfold lock_traces.
  destruct (h (CallGet name) s) as [value s1] eqn:Hget.
  destruct (Error value) as [e|] eqn:Herr.
  - destruct (decide (e = Nil)) as [-> | Hne].
    + destruct (h (CallSetNX name holderToken (TimeOut tl)) s1) as [nx s2] eqn:Hnx.
      rewrite (run_absent h tl name holderToken _ _ _ _ _ Hget Herr Hnx).
      right; left; reflexivity.
    + rewrite (run_read_error h tl name holderToken _ _ _ _ Hget Herr Hne).
      left; reflexivity.
  - destruct (foreign holderToken value) eqn:Hf.
    { rewrite (run_foreign h tl name holderToken _ _ _ Hget Herr Hf). left; reflexivity. }
    destruct (ReUse tl) eqn:Hre.
    2:{ rewrite (run_no_reuse h tl name holderToken _ _ _ Hget Herr Hf Hre).
        left; reflexivity. }
    destruct (h (CallExpire name (TimeOut tl)) s1) as [expire s2] eqn:Hex.
    destruct (decide (GetBool expire = (true, None))) as [Hok | Hko].
    + destruct (h (CallGet name) s2) as [after s3] eqn:Hafter.
      rewrite (run_refresh h tl name holderToken _ _ _ _ _ _ _
                 Hget Herr Hf Hre Hex Hok Hafter).
      right; right; left; reflexivity.
    + destruct (h (CallSetNX name holderToken (TimeOut tl)) s2) as [nx s3] eqn:Hnx.
      rewrite (run_fallback h tl name holderToken _ _ _ _ _ _ _
                 Hget Herr Hf Hre Hex Hko Hnx).
      right; right; right; left; reflexivity.
Qed.

Lemma serve_SetNX_frame key value ttl w k :
  k <> key -> store (snd (serve_SetNX key value ttl w)) !! k = store w !! k.
Proof.
  intros Hne. unfold serve_SetNX. destruct (alive w key); cbn; [reflexivity |].
  apply lookup_insert_ne. congruence.
Qed.

Lemma serve_Expire_frame key ttl w k :
  k <> key -> store (snd (serve_Expire key ttl w)) !! k = store w !! k.
Proof.
  intros Hne. unfold serve_Expire. destruct (alive w key); cbn; [| reflexivity].
  apply lookup_insert_ne. congruence.
Qed.

(** A client call leaves every other key as it was. *)
Lemma redis_frame rc c w k :
  k <> GetKey rc (call_key c) -> store (snd (redis rc c w)) !! k = store w !! k.
Proof.
  intros Hne.
  destruct c as [key | key value expiration | key duration]; cbn [redis call_key] in *.
  - rewrite Get_store. reflexivity.
  - unfold SetNX, Drift, Runner_SetNX.
    pose proof (Int63n_store 60 w) as Hs.
    destruct (Int63n 60 w) as [drift w0]. cbn [snd] in Hs. rewrite arrive_emit.
    destruct (fst (arrive w0)) as [[text | text] |]; cbn [snd].
    + cbn. rewrite on_arrival_store, Hs. reflexivity.
    + rewrite serve_SetNX_frame by exact Hne. cbn. rewrite on_arrival_store, Hs.
      reflexivity.
    + pose proof (serve_SetNX_frame (GetKey rc key) (GetValue value)
                    (wrap_int64 (Nanoseconds expiration + drift))
                    (emit (SETNX (GetKey rc key) (GetValue value)
                             (wrap_int64 (Nanoseconds expiration + drift)))
                       (on_arrival w0)) k Hne) as Hf.
      destruct (serve_SetNX _ _ _ _) as [ok w2]. cbn [snd] in *.
      rewrite Hf. cbn. rewrite on_arrival_store, Hs. reflexivity.
  - unfold Expire, Runner_Expire. rewrite arrive_emit.
    destruct (fst (arrive w)) as [[text | text] |]; cbn [snd].
    + cbn. rewrite on_arrival_store. reflexivity.
    + rewrite serve_Expire_frame by exact Hne. cbn. rewrite on_arrival_store.
      reflexivity.
    + pose proof (serve_Expire_frame (GetKey rc key) duration
                    (emit (EXPIRE (GetKey rc key) duration) (on_arrival w)) k Hne) as Hf.
      destruct (serve_Expire _ _ _) as [ok w2]. cbn [snd] in *.
      rewrite Hf. cbn. rewrite on_arrival_store. reflexivity.
Qed.

(** A relation between the worlds before and after, kept by every call a
    program may make, is kept by the run. *)
Lemma run_preserves {R : Type} rc (P : Call -> Prop) (I : World -> World -> Prop) :
  (forall w, I w w) ->
  (forall a b c, I a b -> I b c -> I a c) ->
  (forall c w, P c -> I w (snd (redis rc c w))) ->
  forall (p : Prog R) w, OnlyCalls P p -> I w (snd (fst (run (redis rc) p w))).
Proof.
  intros Hrefl Htrans Hstep p. induction p as [r | c k IH]; intros w Hp.
  - apply Hrefl.
  - destruct Hp as [Hc Hk]. cbn [run].
    pose proof (Hstep c w Hc) as H1.
    destruct (redis rc c w) as [oc w1]. cbn [snd] in H1.
    pose proof (IH oc w1 (Hk oc)) as H2.
    destruct (run (redis rc) (k oc) w1) as [[r w2] tr]. cbn [fst snd] in *.
    exact (Htrans _ _ _ H1 H2).
Qed.

(** X13: whatever its outcome, [Lock] leaves the entry of every key other
    than the namespaced key of its name as it was: it creates, refreshes or
    overwrites nothing else. *)
Theorem Lock_frame (rc : RedisClient) (tl : TimeoutLocker) (name holderToken : string)
    (w : World) (k : string) :
  k <> GetKey rc name ->
  store (snd (fst (LockOn rc tl name holderToken w))) !! k = store w !! k.
Proof.
  intros Hne. unfold LockOn.
  apply (run_preserves rc (lock_call tl name holderToken)
           (fun a b => store b !! k = store a !! k)).
  - reflexivity.
  - intros a b c H1 H2. rewrite H2. exact H1.
  - intros c w0 [-> | [-> | ->]]; apply redis_frame; exact Hne.
  - apply Lock_only_calls.
Qed.

Lemma Lock_frame_witness :
  store (snd (fst (LockOn rc0 tl5 "job2" "workerB" world1))) !! "app-ns-job1"
  = store world1 !! "app-ns-job1".
Proof.
  apply (Lock_frame rc0 tl5 "job2" "workerB" world1 "app-ns-job1"). discriminate.
Defined.

Lemma on_arrival_emit c w : on_arrival (emit c w) = emit c (on_arrival w).
Proof. unfold on_arrival at 1. rewrite arrive_emit. reflexivity. Qed.

Lemma on_arrival_rng w : rng (on_arrival w) = rng w.
Proof. unfold on_arrival, arrive. destruct (net w); reflexivity. Qed.

Lemma on_arrival_ext w w' :
  clock w' = clock w -> net w' = net w ->
  clock (on_arrival w') = clock (on_arrival w)
  /\ net (on_arrival w') = net (on_arrival w).
Proof.
  unfold on_arrival, arrive. intros Hc Hn. rewrite Hn.
  destruct (net w) eqn:E; cbn; rewrite ?Hc, ?Hn, ?E; split; reflexivity.
Qed.

(** A set-if-absent served while the key is live sets nothing and does not
    report success. *)
Lemma SetNX_live rc key value expiration w :
  is_Some (alive (on_arrival w) (GetKey rc key)) ->
  GetBool (fst (SetNX rc key value expiration w)) <> (true, None)
  /\ store (snd (SetNX rc key value expiration w)) = store w.
Proof.
  intros [v Hv]. unfold SetNX, Drift, Runner_SetNX.
  assert (Ha0 : alive (on_arrival (snd (Int63n 60 w))) (GetKey rc key) = Some v).
  { rewrite <- Hv. apply alive_on_arrival_ext;
      [apply Int63n_store | apply Int63n_clock | apply Int63n_net]. }
  pose proof (Int63n_store 60 w) as Hs.
  destruct (Int63n 60 w) as [drift w0]. cbn [snd] in *. rewrite arrive_emit.
  destruct (fst (arrive w0)) as [[text | text] |].
  - cbn. split; [discriminate |]. rewrite on_arrival_store. exact Hs.
  - unfold serve_SetNX. rewrite alive_emit, Ha0. cbn.
    split; [discriminate |]. rewrite on_arrival_store. exact Hs.
  - unfold serve_SetNX. rewrite alive_emit, Ha0. cbn.
    split; [discriminate |]. rewrite on_arrival_store. exact Hs.
Qed.

(** X14: the race of two callers that both found the key absent is settled
    by the set-if-absent: the caller whose set-if-absent is served while the
    key is live again (another acquired it meanwhile, be it with the same
    token) ends with false after that one call, and the store is as the
    winner left it. *)
Theorem Lock_lost_race (rc : RedisClient) (tl : TimeoutLocker)
    (name holderToken : string) (w : World) :
  is_Some (holder rc name w) ->
  run (redis rc) (after_read (Lock tl name holderToken) absent) w
  = (false, snd (SetNX rc name holderToken (TimeOut tl) w),
     [CallSetNX name holderToken (TimeOut tl)])
  /\ store (snd (SetNX rc name holderToken (TimeOut tl) w)) = store w.
Proof.
  intros Hlive.
  destruct (SetNX_live rc name holderToken (TimeOut tl) w Hlive) as [Hko Hstore].
  split; [| exact Hstore].
  unfold Lock, after_read, absent. cbn [Error].
  rewrite bool_decide_eq_true_2 by reflexivity. cbn [run redis].
  destruct (SetNX rc name holderToken (TimeOut tl) w) as [nx w1]. cbn [fst snd] in *.
  pose proof (took_effect nx) as Ht. destruct (GetBool nx) as [bol err].
  rewrite Ht. rewrite bool_decide_eq_false_2 by exact Hko. reflexivity.
Qed.

Lemma Lock_lost_race_witness :
  run (redis rc0) (after_read (Lock tl3 "job1" "workerB") absent) world1
  = (false, snd (SetNX rc0 "job1" "workerB" (TimeOut tl3) world1),
     [CallSetNX "job1" "workerB" (TimeOut tl3)])
  /\ store (snd (SetNX rc0 "job1" "workerB" (TimeOut tl3) world1)) = store world1.
Proof.
  apply (Lock_lost_race rc0 tl3 "job1" "workerB" world1). eexists; reflexivity.
Defined.

(** A set-if-absent served without fault on an absent key. *)
Lemma SetNX_free rc key value expiration w :
  fst (arrive w) = None ->
  alive (on_arrival w) (GetKey rc key) = None ->
  exists w',
    SetNX rc key value expiration w = (mkOutcome None (ABool true), w')
    /\ store w' !! GetKey rc key
       = Some {| held := value;
                 deadline := clock (on_arrival w) + fst (Drift expiration w) |}
    /\ rng w' = tail (rng w).
Proof.
  intros Hf Ha. unfold SetNX, Drift, Runner_SetNX.
  assert (Hf0 : fst (arrive (snd (Int63n 60 w))) = None).
  { rewrite <- Hf. apply arrive_fault_ext, Int63n_net. }
  assert (Ha0 : alive (on_arrival (snd (Int63n 60 w))) (GetKey rc key) = None).
  { rewrite <- Ha. apply alive_on_arrival_ext;
      [apply Int63n_store | apply Int63n_clock | apply Int63n_net]. }
  destruct (on_arrival_ext w (snd (Int63n 60 w)) (Int63n_clock 60 w) (Int63n_net 60 w))
    as [Hc0 _].
  pose proof (Int63n_rng 60 w) as Hr.
  destruct (Int63n 60 w) as [drift w0]. cbn [fst snd] in *.
  rewrite arrive_emit, Hf0. unfold serve_SetNX. rewrite alive_emit, Ha0.
  eexists. split; [reflexivity |]. cbn. split.
  - rewrite lookup_insert_eq, Hc0. reflexivity.
  - rewrite on_arrival_rng. exact Hr.
Qed.

(** X15: a first acquisition on a calm network, the key being absent or
    expired: [Lock] answers true after the read and one set-if-absent, and
    the entry it leaves holds the token with the deadline at the instant the
    set-if-absent was served plus the drifted lease, one number having been
    drawn from the generator. *)
Theorem Lock_acquire_deadline (rc : RedisClient) (tl : TimeoutLocker)
    (name holderToken : string) (w : World) :
  holder rc name w = None ->
  calm 2 w ->
  exists w',
    LockOn rc tl name holderToken w
    = (true, w', [CallGet name; CallSetNX name holderToken (TimeOut tl)])
    /\ store w' !! GetKey rc name
       = Some {| held := holderToken;
                 deadline := clock (on_arrival (on_arrival w))
                             + fst (Drift (TimeOut tl) w) |}
    /\ rng w' = tail (rng w).
Proof.
  intros Hh Hcalm. pose proof (Get_unfold rc name w) as HG.
  apply calm_first in Hcalm as [Hf1 Hcalm]. apply calm_first in Hcalm as [Hf2 _].
  unfold holder in Hh. rewrite Hf1, Hh in HG.
  set (w1 := emit (GET (GetKey rc name)) (on_arrival w)) in *.
  assert (Hf2' : fst (arrive w1) = None).
  { unfold w1. rewrite arrive_emit. exact Hf2. }
  assert (Ha2 : alive (on_arrival w1) (GetKey rc name) = None).
  { apply (alive_later (on_arrival w)); [| | exact Hh].
    - rewrite on_arrival_store. reflexivity.
    - apply (on_arrival_clock w1). }
  destruct (SetNX_free rc name holderToken (TimeOut tl) w1 Hf2' Ha2)
    as [w' [Hnx [Hst Hrng]]].
  exists w'. split; [| split].
  - unfold LockOn.
    rewrite (run_absent (redis rc) tl name holderToken w absent w1
               (mkOutcome None (ABool true)) w' HG eq_refl Hnx).
    reflexivity.
  - rewrite Hst. unfold w1. rewrite on_arrival_emit. cbn [clock emit].
    unfold Drift, Int63n. cbn [rng emit]. rewrite on_arrival_rng.
    destruct (rng w); reflexivity.
  - rewrite Hrng. unfold w1. cbn [rng emit]. rewrite on_arrival_rng. reflexivity.
Qed.

Lemma Lock_acquire_deadline_witness :
  exists w',
    LockOn rc0 tl5 "job1" "workerA" world0
    = (true, w', [CallGet "job1"; CallSetNX "job1" "workerA" (TimeOut tl5)])
    /\ store w' !! GetKey rc0 "job1"
       = Some {| held := "workerA";
                 deadline := clock (on_arrival (on_arrival world0))
                             + fst (Drift (TimeOut tl5) world0) |}
    /\ rng w' = tail (rng world0).
Proof.
  apply (Lock_acquire_deadline rc0 tl5 "job1" "workerA" world0);
    [reflexivity | constructor].
Defined.

(** A refresh served without fault on a live key. *)
Lemma Expire_live rc key duration w v :
  fst (arrive w) = None ->
  alive (on_arrival w) (GetKey rc key) = Some v ->
  exists w',
    Expire rc key duration w = (mkOutcome None (ABool true), w')
    /\ store w' !! GetKey rc key
       = Some {| held := v; deadline := clock (on_arrival w) + duration |}
    /\ clock w' = clock (on_arrival w)
    /\ net w' = net (on_arrival w).
Proof.
  intros Hf Ha. unfold Expire, Runner_Expire. rewrite arrive_emit, Hf.
  unfold serve_Expire. rewrite alive_emit, Ha.
  eexists. split; [reflexivity |]. cbn. split; [| split; reflexivity].
  apply lookup_insert_eq.
Qed.

Lemma alive_same_value w w' k v v' :
  store w' = store w -> alive w k = Some v -> alive w' k = Some v' -> v' = v.
Proof.
  unfold alive. intros ->. destruct (store w !! k) as [e|]; [| discriminate].
  destruct (clock w <? deadline e), (clock w' <? deadline e); congruence.
Qed.

(** X16: reacquisition with reuse on a calm network: when the key holds the
    caller's token at the read, is still live when the refresh is served and
    the confirming read is served less than a lease later, [Lock] answers
    true after read, refresh and read, and the entry then holds the token
    with the deadline at the instant the refresh was served plus exactly the
    lease: the refresh adds no drift. *)
Theorem Lock_reacquire (rc : RedisClient) (tl : TimeoutLocker)
    (name holderToken : string) (w : World) :
  ReUse tl = true ->
  calm 3 w ->
  holder rc name w = Some holderToken ->
  is_Some (alive (on_arrival (on_arrival w)) (GetKey rc name)) ->
  clock (on_arrival (on_arrival (on_arrival w)))
  < clock (on_arrival (on_arrival w)) + TimeOut tl ->
  exists w',
    LockOn rc tl name holderToken w
    = (true, w', [CallGet name; CallExpire name (TimeOut tl); CallGet name])
    /\ store w' !! GetKey rc name
       = Some {| held := holderToken;
                 deadline := clock (on_arrival (on_arrival w)) + TimeOut tl |}.
Proof.
  intros Hre Hcalm Hh [v Hv] Hsoon.
  apply calm_first in Hcalm as [Hf1 Hcalm]. apply calm_first in Hcalm as [Hf2 Hcalm].
  apply calm_first in Hcalm as [Hf3 _].
  (* the read *)
  pose proof (Get_unfold rc name w) as HG. unfold holder in Hh. rewrite Hf1, Hh in HG.
  set (w1 := emit (GET (GetKey rc name)) (on_arrival w)) in *.
  assert (Hv' : v = holderToken).
  { apply (alive_same_value (on_arrival w) (on_arrival (on_arrival w)) (GetKey rc name));
      [rewrite !on_arrival_store; reflexivity | exact Hh | exact Hv]. }
  subst v.
  (* the refresh *)
  assert (Hf2' : fst (arrive w1) = None).
  { unfold w1. rewrite arrive_emit. exact Hf2. }
  assert (Ha2 : alive (on_arrival w1) (GetKey rc name) = Some holderToken).
  { unfold w1. rewrite on_arrival_emit, alive_emit. exact Hv. }
  destruct (Expire_live rc name (TimeOut tl) w1 holderToken Hf2' Ha2)
    as [w2 [Hex [Hst2 [Hc2 Hn2]]]].
  assert (Hc1 : clock (on_arrival w1) = clock (on_arrival (on_arrival w))).
  { unfold w1. rewrite on_arrival_emit. reflexivity. }
  rewrite Hc1 in Hst2, Hc2.
  assert (Hn1 : net (on_arrival w1) = net (on_arrival (on_arrival w))).
  { unfold w1. rewrite on_arrival_emit. reflexivity. }
  rewrite Hn1 in Hn2.
  (* the confirming read *)
  pose proof (Get_unfold rc name w2) as HG2.
  rewrite (arrive_fault_ext _ _ Hn2), Hf3 in HG2.
  destruct (on_arrival_ext _ _ Hc2 Hn2) as [Hc3 _].
  assert (Ha3 : alive (on_arrival w2) (GetKey rc name) = Some holderToken).
  { unfold alive. rewrite on_arrival_store, Hst2. cbn [deadline held].
    rewrite Hc3. rewrite (proj2 (Z.ltb_lt _ _)) by exact Hsoon. reflexivity. }
  rewrite Ha3 in HG2.
  eexists. split.
  - unfold LockOn.
    rewrite (run_refresh (redis rc) tl name holderToken w
               (mkOutcome None (AString holderToken)) w1
               (mkOutcome None (ABool true)) w2
               (mkOutcome None (AString holderToken)) _
               HG eq_refl
               (foreign_own holderToken (mkOutcome None (AString holderToken)) eq_refl)
               Hre Hex eq_refl HG2).
    unfold confirmed. rewrite bool_decide_eq_true_2; [reflexivity | done].
  - cbn [store emit]. rewrite on_arrival_store. exact Hst2.
Qed.

Lemma Lock_reacquire_witness :
  exists w',
    LockOn rc0 tl5 "job1" "workerA" (pass (2 * second) world1)
    = (true, w', [CallGet "job1"; CallExpire "job1" (TimeOut tl5); CallGet "job1"])
    /\ store w' !! GetKey rc0 "job1"
       = Some {| held := "workerA"; deadline := 2 * second + TimeOut tl5 |}.
Proof.
  apply (Lock_reacquire rc0 tl5 "job1" "workerA" (pass (2 * second) world1)).
  - reflexivity.
  - constructor.
  - reflexivity.
  - eexists; reflexivity.
  - reflexivity.
Defined.

(** X17: what [Lock] wrote can be read back: after a [Lock] that answered
    true, a fault-free [Get] of the same name served before the entry
    expires returns the holder's token with no error. *)
Theorem Lock_then_Get (rc : RedisClient) (tl : TimeoutLocker)
    (name holderToken : string) (w wA w' : World) (tr : list Call) :
  LockOn rc tl name holderToken w = (true, wA, tr) ->
  store w' !! GetKey rc name = store wA !! GetKey rc name ->
  is_Some (holder rc name w') ->
  calm 1 w' ->
  fst (Get rc name w') = mkOutcome None (AString holderToken)
  /\ GetString (fst (Get rc name w')) = (holderToken, None).
Proof.
  intros HA Hstore [v Hv] Hcalm.
  destruct (Lock_true_holds _ _ _ _ _ _ _ HA) as [e [He Hheld]].
  rewrite <- Hstore in He.
  pose proof (holder_held _ _ _ _ _ He Hv) as ->.
  apply calm_first in Hcalm as [Hf _].
  rewrite Get_unfold. unfold holder in Hv. rewrite Hf, Hv, Hheld.
  split; reflexivity.
Qed.

Lemma Lock_then_Get_witness :
  fst (Get rc0 "job1" (pass (4 * second) world1)) = mkOutcome None (AString "workerA")
  /\ GetString (fst (Get rc0 "job1" (pass (4 * second) world1))) = ("workerA", None).
Proof.
  apply (Lock_then_Get rc0 tl5 "job1" "workerA" world0 world1
           (pass (4 * second) world1)
           [CallGet "job1"; CallSetNX "job1" "workerA" (5 * second)]).
  - reflexivity.
  - reflexivity.
  - eexists; reflexivity.
  - constructor.
Defined.
